(** * Terminal utilities of ccusage: a shallow embedding of [_terminal-utils.ts]

    The file embeds the three components of [src/_terminal-utils.ts]:
    the [TERMINAL_CONTROL] table, the stateful [TerminalManager] class and
    the two pure formatters [createProgressBar] and [centerText].

    JavaScript numbers are modelled by exact rationals ([Q]): the values the
    properties below talk about (percentages, cell counts, paddings) are
    compared, clamped and rounded to integers, and IEEE rounding of the
    intermediate products is abstracted away.  Where a property depends on
    that rounding, it is stated on the module [Rounded], which gives the
    two formatters with the rounding of every arithmetic result explicit,
    and [Binary64] defines the rounding to the nearest double.  Numbers
    are finite throughout: NaN and the infinities are not modelled, nor is
    the engine's limit on the length of a string.  Strings are byte strings
    ([string], UTF-8), which is faithful for concatenation and repetition.
    An abrupt completion (a thrown exception) is an explicit constructor of
    the result type. *)

From Stdlib Require Import ZArith QArith Qround Qabs Qpower Bool List String Ascii.
From Stdlib Require Import DecimalString Lia Lqa.
Import ListNotations.

Local Open Scope string_scope.

(** ** The ECMAScript runtime: completions, numbers, strings *)

Module JS.

Definition number := Q.

Inductive exception : Type :=
| RangeError
| TypeError.

(** A call either returns normally or throws. *)
Inductive completion (A : Type) : Type :=
| Return (a : A)
| Throw (e : exception).
Arguments Return {A} a.
Arguments Throw {A} e.

Definition bind {A B} (c : completion A) (k : A -> completion B) : completion B :=
  match c with
  | Return a => k a
  | Throw e => Throw e
  end.

Definition returns {A} (c : completion A) : Prop := exists a, c = Return a.
Definition throws {A} (c : completion A) : Prop := exists e, c = Throw e.

(** Strict comparisons [a < b], [a > b] and [a >= b] on numbers. *)
Definition lt (a b : number) : bool := negb (Qle_bool b a).
Definition gt (a b : number) : bool := lt b a.
Definition ge (a b : number) : bool := Qle_bool b a.

(** [Math.min(a, b)], [Math.floor(x)] and [Math.round(x)]; the latter is
    [floor(x + 1/2)], ties going up. *)
Definition Math_min (a b : number) : number := if Qle_bool a b then a else b.
Definition Math_floor (x : number) : number := inject_Z (Qfloor x).
Definition Math_round (x : number) : number := inject_Z (Qfloor (x + (1 # 2))).

(** [ToIntegerOrInfinity]: truncation towards zero. *)
Definition ToIntegerOrInfinity (x : number) : Z := Z.quot (Qnum x) (Z.pos (Qden x)).

Fixpoint repeat_string (s : string) (n : nat) : string :=
  match n with
  | O => ""
  | S k => s ++ repeat_string s k
  end.

(** [String.prototype.repeat(count)]: the count is truncated to an
    integer and a negative one is a [RangeError]. *)
Definition String_repeat (s : string) (count : number) : completion string :=
  let n := ToIntegerOrInfinity count in
  if (n <? 0)%Z then Throw RangeError else Return (repeat_string s (Z.to_nat n)).

Definition digits (n : Z) : string := NilZero.string_of_int (Z.to_int n).

(** An integer of magnitude at most 2^53: every one of them is a double. *)
Definition is_exact_integer (x : number) : bool :=
  let r := Qred x in
  (Z.pos (Qden r) =? 1)%Z && (Z.abs (Qnum r) <=? 2 ^ 53)%Z.

Section NumberToString.

(** [Number::toString] prints such an integer as its decimal digits.  The
    shortest round-trip rendering of every other number (fractions,
    exponent notation) belongs to the runtime and stays a parameter. *)
Variable toString_other : number -> string.

Definition Number_toString (x : number) : string :=
  if is_exact_integer x then digits (Qnum (Qred x)) else toString_other x.

Definition pad_zeros (f : nat) (m : string) : string :=
  let k := String.length m in
  if (k <=? f)%nat then repeat_string "0" (f + 1 - k) ++ m else m.

(** [Number.prototype.toFixed(f)]: the sign is split off, the magnitude
    is scaled by [10^f] and rounded to the nearest integer (the larger
    one on a tie), whose digits are padded to [f + 1] places and split
    around the decimal point. *)
Definition Number_toFixed (x : number) (f : nat) : string :=
  let s := if lt x 0 then "-" else "" in
  let x := if lt x 0 then (- x)%Q else x in
  if ge x (inject_Z (10 ^ 21)) then s ++ Number_toString x
  else
    let n := Qfloor (x * inject_Z (10 ^ Z.of_nat f) + (1 # 2)) in
    let m := pad_zeros f (digits n) in
    let k := String.length m in
    match f with
    | O => s ++ m
    | _ => s ++ substring 0 (k - f) m ++ "." ++ substring (k - f) f m
    end.

End NumberToString.

End JS.

Import JS.

Notation "x <- c ;; k" := (bind c (fun x => k))
  (at level 61, c at next level, right associativity).

(** The escape character U+001B. *)
Definition ESC : string := String (ascii_of_nat 27) "".

(** ** The escape-sequence table

    [ansi-escapes] is an external package: the development is parametric in
    its exports.  [vt100] below is the conventional instance. *)

Record AnsiEscapes : Type := {
  cursorHide : string;
  cursorShow : string;
  clearScreen : string;
  eraseLine : string;
  cursorTo : number -> option number -> string;
  cursorUp : number -> string;
  cursorDown : number -> string
}.

Module TERMINAL_CONTROL.
Section Table.
Variable ansiEscapes : AnsiEscapes.

Definition HIDE_CURSOR : string := cursorHide ansiEscapes.
Definition SHOW_CURSOR : string := cursorShow ansiEscapes.
Definition CLEAR_SCREEN : string := clearScreen ansiEscapes.
Definition CLEAR_LINE : string := eraseLine ansiEscapes.
Definition MOVE_TO_TOP : string := cursorTo ansiEscapes 0 (Some 0).
Definition MOVE_UP (n : number) : string := cursorUp ansiEscapes n.
Definition MOVE_DOWN (n : number) : string := cursorDown ansiEscapes n.
Definition MOVE_TO_COLUMN (n : number) : string :=
  cursorTo ansiEscapes (n - 1) None.
End Table.
End TERMINAL_CONTROL.

(** ** The terminal state manager *)

(** The output sink: what a [tty.WriteStream] offers to the manager.  A
    stream that is not a terminal leaves [isTTY], [columns] and [rows]
    undefined.  [written] records the chunks passed to [write], oldest
    first. *)
Module WriteStream.

Record t : Type := {
  isTTY : option bool;
  columns : option number;
  rows : option number;
  written : list string
}.

Definition write (chunk : string) (s : t) : t :=
  {| isTTY := isTTY s; columns := columns s; rows := rows s;
     written := written s ++ [chunk] |}.

End WriteStream.

(** Truthiness of a possibly undefined boolean. *)
Definition truthy (b : option bool) : bool :=
  match b with
  | Some true => true
  | _ => false
  end.

(** [x || d] on an optional number: undefined and zero are falsy. *)
Definition or_default (x : option number) (d : number) : number :=
  match x with
  | Some c => if Qeq_bool c 0 then d else c
  | None => d
  end.

Module TerminalManager.

(** The instance: the stream it is bound to and its private flag.  (The
    private [originalWrite] is never read and is left out.) *)
Record t : Type := {
  stream : WriteStream.t;
  cursorHidden : bool
}.

Definition new (s : WriteStream.t) : t :=
  {| stream := s; cursorHidden := false |}.

Definition emit (chunk : string) (this : t) : t :=
  {| stream := WriteStream.write chunk (stream this);
     cursorHidden := cursorHidden this |}.

Definition set_cursorHidden (b : bool) (this : t) : t :=
  {| stream := stream this; cursorHidden := b |}.

Section Methods.
Variable ansiEscapes : AnsiEscapes.

Definition hideCursor (this : t) : t :=
  if negb (cursorHidden this) && truthy (WriteStream.isTTY (stream this)) then
    set_cursorHidden true (emit (TERMINAL_CONTROL.HIDE_CURSOR ansiEscapes) this)
  else this.

Definition showCursor (this : t) : t :=
  if cursorHidden this && truthy (WriteStream.isTTY (stream this)) then
    set_cursorHidden false (emit (TERMINAL_CONTROL.SHOW_CURSOR ansiEscapes) this)
  else this.

Definition clearScreen (this : t) : t :=
  if truthy (WriteStream.isTTY (stream this)) then
    emit (TERMINAL_CONTROL.MOVE_TO_TOP ansiEscapes)
      (emit (TERMINAL_CONTROL.CLEAR_SCREEN ansiEscapes) this)
  else this.

Definition clearLine (this : t) : t :=
  if truthy (WriteStream.isTTY (stream this)) then
    emit (TERMINAL_CONTROL.CLEAR_LINE ansiEscapes) this
  else this.

Definition moveUp (lines : number) (this : t) : t :=
  if truthy (WriteStream.isTTY (stream this)) && gt lines 0 then
    emit (TERMINAL_CONTROL.MOVE_UP ansiEscapes lines) this
  else this.

Definition moveToLineStart (this : t) : t :=
  if truthy (WriteStream.isTTY (stream this)) then
    emit (TERMINAL_CONTROL.MOVE_TO_COLUMN ansiEscapes 1) this
  else this.

Definition write (text : string) (this : t) : t := emit text this.

Definition width (this : t) : number := or_default (WriteStream.columns (stream this)) 80.
Definition height (this : t) : number := or_default (WriteStream.rows (stream this)) 24.

Definition isTTY (this : t) : bool :=
  match WriteStream.isTTY (stream this) with
  | Some b => b
  | None => false
  end.

Definition cleanup (this : t) : t := showCursor this.

(** A method call that changes the manager or its sink. *)
Inductive call : Type :=
| HideCursor
| ShowCursor
| ClearScreen
| ClearLine
| MoveUp (lines : number)
| MoveToLineStart
| Write (text : string)
| Cleanup.

Definition invoke (c : call) (this : t) : t :=
  match c with
  | HideCursor => hideCursor this
  | ShowCursor => showCursor this
  | ClearScreen => clearScreen this
  | ClearLine => clearLine this
  | MoveUp lines => moveUp lines this
  | MoveToLineStart => moveToLineStart this
  | Write text => write text this
  | Cleanup => cleanup this
  end.

(** The calls of a caller, issued in order. *)
Definition run (calls : list call) (this : t) : t :=
  fold_left (fun m c => invoke c m) calls this.

End Methods.

End TerminalManager.

(** ** The progress bar formatter *)

Record Colors : Type := {
  low : option string;
  medium : option string;
  high : option string;
  critical : option string
}.

Record Options : Type := {
  showPercentage : option bool;
  showValues : option bool;
  fillChar : option string;
  emptyChar : option string;
  leftBracket : option string;
  rightBracket : option string;
  colors : option Colors
}.

(** The literals [{}] for both records. *)
Definition noColors : Colors :=
  {| low := None; medium := None; high := None; critical := None |}.

Definition noOptions : Options :=
  {| showPercentage := None; showValues := None; fillChar := None;
     emptyChar := None; leftBracket := None; rightBracket := None;
     colors := None |}.

(** A destructuring default: it applies to an undefined property. *)
Definition default {A} (d : A) (x : option A) : A :=
  match x with
  | Some v => v
  | None => d
  end.

Definition RESET_COLOR : string := ESC ++ "[0m".

Definition is_empty (s : string) : bool :=
  match s with
  | EmptyString => true
  | String _ _ => false
  end.

(** [const percentage = max > 0 ? Math.min(100, (value / max) * 100) : 0] *)
Definition percentage_of (value max : number) : number :=
  if gt max 0 then Math_min 100 (value / max * 100) else 0.

(** The cascade that determines [color]: a tier is taken when it is
    supplied ([!= null]) and its threshold is met; [''] stands for no
    color. *)
Definition color_of (colors : Colors) (percentage : number) : string :=
  match critical colors, ge percentage 90 with
  | Some c, true => c
  | _, _ =>
    match high colors, ge percentage 80 with
    | Some c, true => c
    | _, _ =>
      match medium colors, ge percentage 50 with
      | Some c, true => c
      | _, _ =>
        match low colors with
        | Some c => c
        | None => ""
        end
      end
    end
  end.

Section ProgressBar.

(** The runtime's rendering of the numbers that are not such integers. *)
Variable toString_other : number -> string.

Definition createProgressBar (value max width : number) (options : Options)
  : completion string :=
  let showPercentage := default true (showPercentage options) in
  let showValues := default false (showValues options) in
  let fillChar := default "█" (fillChar options) in
  let emptyChar := default "░" (emptyChar options) in
  let leftBracket := default "[" (leftBracket options) in
  let rightBracket := default "]" (rightBracket options) in
  let colors := default noColors (colors options) in
  let percentage := percentage_of value max in
  let fillWidth := Math_round (percentage / 100 * width) in
  let emptyWidth := width - fillWidth in
  let color := color_of colors percentage in
  let bar := leftBracket in
  let bar := if negb (is_empty color) then bar ++ color else bar in
  fill <- String_repeat fillChar fillWidth ;;
  let bar := bar ++ fill in
  empty <- String_repeat emptyChar emptyWidth ;;
  let bar := bar ++ empty in
  let bar := if negb (is_empty color) then bar ++ RESET_COLOR else bar in
  let bar := bar ++ rightBracket in
  let bar :=
    if showPercentage
    then bar ++ " " ++ Number_toFixed toString_other percentage 1 ++ "%"
    else bar in
  let bar :=
    if showValues
    then bar ++ " (" ++ Number_toString toString_other value ++ "/"
             ++ Number_toString toString_other max ++ ")"
    else bar in
  Return bar.

End ProgressBar.

(** ** The text centering formatter *)

Section CenterText.

(** The [string-width] package: the number of terminal columns that a
    string occupies. *)
Variable stringWidth : string -> nat.

Definition centerText (text : string) (width : number) : completion string :=
  let textLength := inject_Z (Z.of_nat (stringWidth text)) in
  if ge textLength width then Return text
  else
    let leftPadding := Math_floor ((width - textLength) / 2) in
    let rightPadding := width - textLength - leftPadding in
    l <- String_repeat " " leftPadding ;;
    r <- String_repeat " " rightPadding ;;
    Return (l ++ text ++ r).

End CenterText.

(** ** The conventional escape sequences

    The sequences that [ansi-escapes] generates for a VT100-compatible
    terminal.  They instantiate the table where a concrete one is needed. *)

Definition CSI : string := ESC ++ "[".

Definition vt100 (toString_other : number -> string) : AnsiEscapes :=
  let str := Number_toString toString_other in
  {| cursorHide := CSI ++ "?25l";
     cursorShow := CSI ++ "?25h";
     clearScreen := ESC ++ "c";
     eraseLine := CSI ++ "2K";
     cursorTo := fun x y =>
       match y with
       | None => CSI ++ str (x + 1) ++ "G"
       | Some y => CSI ++ str (y + 1) ++ ";" ++ str (x + 1) ++ "H"
       end;
     cursorUp := fun n => CSI ++ str n ++ "A";
     cursorDown := fun n => CSI ++ str n ++ "B" |}.

(** A rendering of the remaining numbers, good enough to run examples. *)
Definition no_rendering : number -> string := fun _ => "?".

(** A terminal of 120 by 40 cells and a pipe, both with nothing written. *)
Definition a_terminal : WriteStream.t :=
  {| WriteStream.isTTY := Some true; WriteStream.columns := Some 120;
     WriteStream.rows := Some 40; WriteStream.written := [] |}.

Definition a_pipe : WriteStream.t :=
  {| WriteStream.isTTY := None; WriteStream.columns := None;
     WriteStream.rows := None; WriteStream.written := [] |}.

(** ** Vocabulary of the properties *)

Module TerminalManagerSpec.
Import TerminalManager.

(** What a manager has sent to its sink [s] since it was bound to it. *)
Definition emitted_since (s : WriteStream.t) (m : t) : list string :=
  skipn (List.length (WriteStream.written s)) (WriteStream.written (stream m)).

(** Only [hideCursor] and [showCursor]. *)
Definition cursor_call (c : call) : Prop := c = HideCursor \/ c = ShowCursor.

(** The flag is raised on a terminal only. *)
Definition cursor_invariant (m : t) : Prop :=
  cursorHidden m = true -> truthy (WriteStream.isTTY (stream m)) = true.

Section WithTable.
Variable E : AnsiEscapes.

(** One step of scanning the output for the last cursor sequence. *)
Definition scan (pending : bool) (chunk : string) : bool :=
  if String.eqb chunk (TERMINAL_CONTROL.HIDE_CURSOR E) then true
  else if String.eqb chunk (TERMINAL_CONTROL.SHOW_CURSOR E) then false
  else pending.

(** A hide sequence was sent and no show sequence after it. *)
Definition unmatched_hide (out : list string) : bool :=
  fold_left scan out false.

Definition hides (out : list string) : nat :=
  count_occ string_dec out (TERMINAL_CONTROL.HIDE_CURSOR E).
Definition shows (out : list string) : nat :=
  count_occ string_dec out (TERMINAL_CONTROL.SHOW_CURSOR E).
(** The flag mirrors the output sent after [pre], in which hide and
    show sequences alternate. *)
Definition tracks (pre : list string) (m : t) : Prop :=
  exists out,
    WriteStream.written (stream m) = (pre ++ out)%list /\
    cursorHidden m = unmatched_hide out /\
    hides out = (shows out + if cursorHidden m then 1 else 0)%nat.
End WithTable.

End TerminalManagerSpec.

Module ProgressBarSpec.

(** [clamp(x, lo, hi)] *)
Definition clamp (x lo hi : number) : number :=
  if lt x lo then lo else if lt hi x then hi else x.

(** The percentage as the specification words it:
    [max > 0 ? clamp(value / max * 100, 0, 100) : 0]. *)
Definition percentage_spec (value max : number) : number :=
  if gt max 0 then clamp (value / max * 100) 0 100 else 0.

(** The color tiers as the specification words them, evaluated high to
    low; [None] is no color. *)
Definition supplied (c : option string) : bool :=
  match c with
  | Some _ => true
  | None => false
  end.

Definition color_spec (colors : Colors) (percentage : number) : option string :=
  if ge percentage 90 && supplied (critical colors) then critical colors
  else if ge percentage 80 && supplied (high colors) then high colors
  else if ge percentage 50 && supplied (medium colors) then medium colors
  else if supplied (low colors) then low colors
  else None.

(** The text that follows the right bracket. *)
Definition labels (toString_other : number -> string)
    (value max : number) (options : Options) : string :=
  (if default true (showPercentage options)
   then " " ++ Number_toFixed toString_other (percentage_of value max) 1 ++ "%"
   else "")
  ++
  (if default false (showValues options)
   then " (" ++ Number_toString toString_other value ++ "/"
          ++ Number_toString toString_other max ++ ")"
   else "").

Definition show_values : Options :=
  {| showPercentage := None; showValues := Some true; fillChar := None;
     emptyChar := None; leftBracket := None; rightBracket := None;
     colors := None |}.

Definition red : string := ESC ++ "[31m".

Definition critical_red : Options :=
  {| showPercentage := None; showValues := None; fillChar := None;
     emptyChar := None; leftBracket := None; rightBracket := None;
     colors := Some {| low := None; medium := None; high := None;
                       critical := Some red |} |}.

End ProgressBarSpec.

Definition spaces (n : nat) : string := repeat_string " " n.

(** ** Vocabulary of runs and of the assembled bar *)

Module TerminalManagerRuns.
Import TerminalManager.

(** The effect on the flag of one call on a terminal: [hideCursor] raises
    it, [showCursor] and [cleanup] lower it, the rest leave it. *)
Definition settles_hidden (hidden : bool) (c : call) : bool :=
  match c with
  | HideCursor => true
  | ShowCursor => false
  | Cleanup => false
  | _ => hidden
  end.

(** The last call of the list that can change the flag is a [hideCursor]. *)
Definition ends_hidden (calls : list call) : bool :=
  fold_left settles_hidden calls false.

(** The texts that the calls pass to [write], in order. *)
Definition written_texts (calls : list call) : list string :=
  flat_map (fun c => match c with
                     | Write text => [text]
                     | _ => []
                     end) calls.

End TerminalManagerRuns.

Module ProgressBarShape.
Import ProgressBarSpec.

(** [const fillWidth = Math.round((percentage / 100) * width)] *)
Definition fillWidth_of (value max width : number) : number :=
  Math_round (percentage_of value max / 100 * width).

(** The string that [createProgressBar] assembles around [fill] filled
    and [empty] empty cells. *)
Definition bar_of (toString_other : number -> string)
    (value max : number) (options : Options) (fill empty : nat) : string :=
  let color :=
    color_of (default noColors (colors options)) (percentage_of value max) in
  default "[" (leftBracket options) ++ color
  ++ repeat_string (default "█" (fillChar options)) fill
  ++ repeat_string (default "░" (emptyChar options)) empty
  ++ (if is_empty color then "" else RESET_COLOR)
  ++ default "]" (rightBracket options)
  ++ labels toString_other value max options.

(** Options for a bar of hashes and dots without labels. *)
Definition plain : Options :=
  {| showPercentage := Some false; showValues := None; fillChar := Some "#";
     emptyChar := Some "."; leftBracket := None; rightBracket := None;
     colors := None |}.

End ProgressBarShape.

(** ** The formatters with the rounding of doubles explicit

    The numbers of the code are IEEE doubles: every division,
    multiplication and subtraction returns the double nearest to its exact
    result.  [Rounded] restates the two formatters with that rounding, [fl],
    applied to each arithmetic result; comparisons, [Math.min],
    [Math.floor], [Math.round] and [toFixed] are exact on doubles.  The
    definitions above are the instance with no rounding.  Numbers stay
    finite: an overflow to an infinity is not modelled. *)

Module Rounded.
Section WithRounding.

Variable fl : number -> number.
Variable toString_other : number -> string.

Definition div (a b : number) : number := fl (a / b).
Definition mul (a b : number) : number := fl (a * b).
Definition sub (a b : number) : number := fl (a - b).

(** [const percentage = max > 0 ? Math.min(100, (value / max) * 100) : 0] *)
Definition percentage_of (value max : number) : number :=
  if gt max 0 then Math_min 100 (mul (div value max) 100) else 0.

(** [const fillWidth = Math.round((percentage / 100) * width)] *)
Definition fillWidth_of (value max width : number) : number :=
  Math_round (mul (div (percentage_of value max) 100) width).

Definition createProgressBar (value max width : number) (options : Options)
  : completion string :=
  let showPercentage := default true (showPercentage options) in
  let showValues := default false (showValues options) in
  let fillChar := default "█" (fillChar options) in
  let emptyChar := default "░" (emptyChar options) in
  let leftBracket := default "[" (leftBracket options) in
  let rightBracket := default "]" (rightBracket options) in
  let colors := default noColors (colors options) in
  let percentage := percentage_of value max in
  let fillWidth := Math_round (mul (div percentage 100) width) in
  let emptyWidth := sub width fillWidth in
  let color := color_of colors percentage in
  let bar := leftBracket in
  let bar := if negb (is_empty color) then bar ++ color else bar in
  fill <- String_repeat fillChar fillWidth ;;
  let bar := bar ++ fill in
  empty <- String_repeat emptyChar emptyWidth ;;
  let bar := bar ++ empty in
  let bar := if negb (is_empty color) then bar ++ RESET_COLOR else bar in
  let bar := bar ++ rightBracket in
  let bar :=
    if showPercentage
    then bar ++ " " ++ Number_toFixed toString_other percentage 1 ++ "%"
    else bar in
  let bar :=
    if showValues
    then bar ++ " (" ++ Number_toString toString_other value ++ "/"
             ++ Number_toString toString_other max ++ ")"
    else bar in
  Return bar.

Variable stringWidth : string -> nat.

Definition centerText (text : string) (width : number) : completion string :=
  let textLength := inject_Z (Z.of_nat (stringWidth text)) in
  if ge textLength width then Return text
  else
    let leftPadding := Math_floor (div (sub width textLength) 2) in
    let rightPadding := sub (sub width textLength) leftPadding in
    l <- String_repeat " " leftPadding ;;
    r <- String_repeat " " rightPadding ;;
    Return (l ++ text ++ r).

End WithRounding.

(** What the properties below need of the rounding, all of it true of
    rounding to the nearest double: it is monotone, it leaves a double
    unchanged, and the integers up to 2^53 are doubles. *)
Record rounding_laws (fl : number -> number) : Prop := {
  fl_monotone : forall x y, x <= y -> fl x <= fl y;
  fl_idempotent : forall x, fl (fl x) == fl x;
  fl_integer : forall z, (Z.abs z <= 2 ^ 53)%Z -> fl (inject_Z z) == inject_Z z
}.

(** No rounding at all: exact arithmetic. *)
Definition exact : number -> number := fun x => x.

(** The text that follows the right bracket, for a computed percentage. *)
Definition label_text (toString_other : number -> string)
    (percentage value max : number) (options : Options) : string :=
  (if default true (showPercentage options)
   then " " ++ Number_toFixed toString_other percentage 1 ++ "%"
   else "")
  ++
  (if default false (showValues options)
   then " (" ++ Number_toString toString_other value ++ "/"
          ++ Number_toString toString_other max ++ ")"
   else "").

(** The string that [createProgressBar] assembles around [fill] filled
    and [empty] empty cells. *)
Definition bar_of (fl : number -> number) (toString_other : number -> string)
    (value max : number) (options : Options) (fill empty : nat) : string :=
  let percentage := percentage_of fl value max in
  let color := color_of (default noColors (colors options)) percentage in
  default "[" (leftBracket options) ++ color
  ++ repeat_string (default "█" (fillChar options)) fill
  ++ repeat_string (default "░" (emptyChar options)) empty
  ++ (if is_empty color then "" else RESET_COLOR)
  ++ default "]" (rightBracket options)
  ++ label_text toString_other percentage value max options.

Definition green : string := ESC ++ "[32m".

Definition low_green : Options :=
  {| showPercentage := None; showValues := None; fillChar := None;
     emptyChar := None; leftBracket := None; rightBracket := None;
     colors := Some {| low := Some green; medium := None; high := None;
                       critical := None |} |}.

End Rounded.

(** ** Rounding to the nearest double

    The doubles are the numbers [m * 2^k] with a mantissa [m] of at most 53
    bits and [k >= -1074]; [binary64] rounds a real to the nearest of them,
    to the one with the even mantissa on a tie.  (The largest double is not
    modelled: no result is rounded to an infinity.) *)

Module Binary64.

(** [floor(log2 a)] for a positive [a]. *)
Definition ilog2 (a : Q) : Z :=
  let k := (Z.log2 (Qnum a) - Z.log2 (Z.pos (Qden a)))%Z in
  if Qle_bool (2 ^ k) a then k else (k - 1)%Z.

(** The nearest integer, the even one on a tie. *)
Definition round_half_even (q : Q) : Z :=
  let f := Qfloor q in
  match Qcompare (q - inject_Z f) (1 # 2) with
  | Lt => f
  | Gt => (f + 1)%Z
  | Eq => if Z.even f then f else (f + 1)%Z
  end.

(** The binary exponent of [q], that of the least normal double for the
    subnormal ones. *)
Definition exponent (q : Q) : Z := Z.max (ilog2 (Qabs q)) (-1022).

(** The gap between the doubles around [q]: 52 binary places below its
    leading bit. *)
Definition ulp (q : Q) : Q := 2 ^ (exponent q - 52).

Definition binary64 (q : Q) : Q :=
  if Qeq_bool q 0 then 0
  else Qred (inject_Z (round_half_even (q / ulp q)) * ulp q).

End Binary64.

(** ** A display width that measures grapheme clusters

    [string-width] 7 cuts a text into grapheme clusters and counts each
    cluster as wide as its first character.  [cluster_width] does so for
    texts of one-column characters with the one cluster rule that matters
    below: the prepended mark U+0600 (the bytes D8 80 in UTF-8) takes the
    character after it into its cluster. *)




(** * Properties of the terminal state manager *)

Section TerminalManagerFacts.
Import TerminalManager TerminalManagerSpec.

Variable E : AnsiEscapes.

Local Abbreviation HIDE := (TERMINAL_CONTROL.HIDE_CURSOR E).
Local Abbreviation SHOW := (TERMINAL_CONTROL.SHOW_CURSOR E).

Ltac unfold_methods :=
  unfold invoke, cleanup, hideCursor, showCursor, TerminalManager.clearScreen,
    clearLine, moveUp, moveToLineStart, write, set_cursorHidden, emit,
    WriteStream.write in *.

Ltac split_ifs :=
  repeat match goal with
         | |- context [if ?b then _ else _] => destruct b eqn:?; simpl in *
         end.

Lemma invoke_isTTY (c : call) (m : t) :
  WriteStream.isTTY (stream (invoke E c m)) = WriteStream.isTTY (stream m).
Proof. destruct c; unfold_methods; simpl; split_ifs; reflexivity. Qed.

Lemma invoke_invariant (c : call) (m : t) :
  cursor_invariant m -> cursor_invariant (invoke E c m).
Proof.
  unfold cursor_invariant; intros Hm.
  rewrite invoke_isTTY.
  destruct c; unfold_methods; simpl;
    destruct (cursorHidden m) eqn:Hc;
    destruct (truthy (WriteStream.isTTY (stream m))) eqn:Ht;
    simpl; split_ifs; simpl; rewrite ?Hc; auto; congruence.
Qed.

Lemma run_snoc (calls : list call) (c : call) (m : t) :
  run E (calls ++ [c])%list m = invoke E c (run E calls m).
Proof. unfold run; rewrite fold_left_app; reflexivity. Qed.

Lemma run_isTTY (calls : list call) (m : t) :
  WriteStream.isTTY (stream (run E calls m)) = WriteStream.isTTY (stream m).
Proof.
  induction calls as [|c calls IH] using rev_ind; [reflexivity|].
  rewrite run_snoc, invoke_isTTY; exact IH.
Qed.

Lemma run_invariant (calls : list call) (m : t) :
  cursor_invariant m -> cursor_invariant (run E calls m).
Proof.
  intros Hm; induction calls as [|c calls IH] using rev_ind; [exact Hm|].
  rewrite run_snoc; apply invoke_invariant; exact IH.
Qed.

Lemma showCursor_visible (m : t) :
  cursor_invariant m -> cursorHidden (showCursor E m) = false.
Proof.
  unfold cursor_invariant, showCursor; intros Hm.
  destruct (cursorHidden m) eqn:Hc; simpl.
  - rewrite (Hm eq_refl); reflexivity.
  - exact Hc.
Qed.

Lemma new_invariant (s : WriteStream.t) : cursor_invariant (new s).
Proof. unfold cursor_invariant; simpl; discriminate. Qed.

(** *** The output of a run of cursor calls *)

Lemma unmatched_hide_snoc (out : list string) (chunk : string) :
  unmatched_hide E (out ++ [chunk])%list = scan E (unmatched_hide E out) chunk.
Proof. unfold unmatched_hide; rewrite fold_left_app; reflexivity. Qed.

Lemma hides_snoc (out : list string) (chunk : string) :
  hides E (out ++ [chunk])%list =
  (hides E out + if string_dec chunk HIDE then 1 else 0)%nat.
Proof.
  unfold hides; rewrite count_occ_app; simpl.
  destruct (string_dec chunk HIDE); reflexivity.
Qed.

Lemma shows_snoc (out : list string) (chunk : string) :
  shows E (out ++ [chunk])%list =
  (shows E out + if string_dec chunk SHOW then 1 else 0)%nat.
Proof.
  unfold shows; rewrite count_occ_app; simpl.
  destruct (string_dec chunk SHOW); reflexivity.
Qed.

Hypothesis distinct_sequences : HIDE <> SHOW.

Lemma cursor_call_tracks (pre : list string) (c : call) (m : t) :
  cursor_call c -> tracks E pre m -> tracks E pre (invoke E c m).
Proof.
  intros [-> | ->] (out & Hw & Hc & Hn); simpl.
  - unfold hideCursor.
    destruct (cursorHidden m) eqn:Hh; simpl.
    + exists out; rewrite Hh; auto.
    + destruct (truthy (WriteStream.isTTY (stream m))).
      * exists (out ++ [HIDE])%list; simpl; rewrite Hw, app_assoc.
        rewrite unmatched_hide_snoc, hides_snoc, shows_snoc.
        unfold scan; rewrite String.eqb_refl.
        destruct (string_dec HIDE HIDE); [|congruence].
        destruct (string_dec HIDE SHOW); [congruence|].
        repeat split; lia.
      * exists out; rewrite Hh; auto.
  - unfold showCursor.
    destruct (cursorHidden m) eqn:Hh; simpl.
    + destruct (truthy (WriteStream.isTTY (stream m))).
      * exists (out ++ [SHOW])%list; simpl; rewrite Hw, app_assoc.
        rewrite unmatched_hide_snoc, hides_snoc, shows_snoc.
        unfold scan; rewrite String.eqb_refl.
        destruct (String.eqb_spec SHOW HIDE); [congruence|].
        destruct (string_dec SHOW HIDE); [congruence|].
        destruct (string_dec SHOW SHOW); [|congruence].
        repeat split; lia.
      * exists out; rewrite Hh; auto.
    + exists out; rewrite Hh; auto.
Qed.

Lemma run_tracks (pre : list string) (calls : list call) (m : t) :
  Forall cursor_call calls -> tracks E pre m -> tracks E pre (run E calls m).
Proof.
  intros Hcalls Hm; induction calls as [|c calls IH] using rev_ind; [exact Hm|].
  apply Forall_app in Hcalls as [Hcalls Hc].
  rewrite run_snoc; apply cursor_call_tracks; [|auto].
  inversion Hc; assumption.
Qed.

Lemma new_tracks (s : WriteStream.t) : tracks E (WriteStream.written s) (new s).
Proof. exists []; simpl; rewrite app_nil_r; auto. Qed.

Lemma emitted_since_app (s : WriteStream.t) (m : t) (out : list string) :
  WriteStream.written (stream m) = (WriteStream.written s ++ out)%list ->
  emitted_since s m = out.
Proof.
  unfold emitted_since; intros ->.
  rewrite skipn_app, skipn_all, Nat.sub_diag; reflexivity.
Qed.

End TerminalManagerFacts.

Section TerminalManagerClaims.
Import TerminalManager TerminalManagerSpec.

Local Abbreviation HIDE E := (TERMINAL_CONTROL.HIDE_CURSOR E).
Local Abbreviation SHOW E := (TERMINAL_CONTROL.SHOW_CURSOR E).
Local Abbreviation written m := (WriteStream.written (stream m)).
Local Abbreviation tty m := (truthy (WriteStream.isTTY (stream m))).

(** C3.  After any sequence of [hideCursor] and [showCursor] calls on a
    manager bound to a sink [s], [cleanup] is the show-cursor path, it
    leaves the cursor-hidden flag false, and it sends one show-cursor
    sequence exactly when the output sent so far holds a hide-cursor
    sequence that no later show-cursor sequence matched (one more hide
    than show); otherwise it sends nothing. *)
Theorem cleanup_leaves_cursor_visible
    (E : AnsiEscapes) (distinct : HIDE E <> SHOW E)
    (s : WriteStream.t) (calls : list call)
    (cursor_only : Forall cursor_call calls) :
  let m := run E calls (new s) in
  let out := emitted_since s m in
  cleanup E m = showCursor E m /\
  cursorHidden (cleanup E m) = false /\
  written m = (WriteStream.written s ++ out)%list /\
  hides E out = (shows E out + if unmatched_hide E out then 1 else 0)%nat /\
  written (cleanup E m) =
    (written m ++ if unmatched_hide E out then [SHOW E] else [])%list.
Proof.
  intros m out.
  destruct (run_tracks E distinct _ calls (new s) cursor_only (new_tracks E s))
    as (out' & Hw & Hc & Hn).
  fold m in Hw, Hc, Hn.
  assert (Hout : out = out') by (apply emitted_since_app; exact Hw).
  assert (Hinv : cursor_invariant m)
    by (apply run_invariant, new_invariant).
  rewrite Hout, <- Hc.
  split; [reflexivity|].
  split; [apply showCursor_visible; exact Hinv|].
  split; [exact Hw|].
  split; [exact Hn|].
  unfold cleanup, showCursor.
  destruct (cursorHidden m) eqn:Hh; simpl.
  - rewrite (Hinv Hh); reflexivity.
  - rewrite app_nil_r; reflexivity.
Qed.

Lemma cleanup_leaves_cursor_visible_witness :
  let E := vt100 no_rendering in
  let m := run E [HideCursor; HideCursor; ShowCursor; HideCursor] (new a_terminal) in
  cursorHidden (cleanup E m) = false /\
  written (cleanup E m) = [HIDE E; SHOW E; HIDE E; SHOW E].
Proof.
  intros E m.
  assert (Hd : HIDE E <> SHOW E) by (vm_compute; discriminate).
  assert (Hc : Forall cursor_call [HideCursor; HideCursor; ShowCursor; HideCursor])
    by (repeat constructor; unfold cursor_call; auto).
  destruct (cleanup_leaves_cursor_visible E Hd a_terminal _ Hc)
    as (_ & Hvisible & _ & _ & _).
  split; [exact Hvisible | reflexivity].
Defined.

(** C4.  From the initial state, the first [hideCursor] sends the
    hide-cursor sequence to a terminal and nothing to any other sink, and
    the second call changes nothing; a [showCursor] after the hide sends
    one show-cursor sequence to a terminal, and further [showCursor]
    calls change nothing.  Both methods are idempotent in every state. *)
Theorem hideCursor_idempotent (E : AnsiEscapes) (s : WriteStream.t) :
  let m0 := new s in
  let once := if truthy (WriteStream.isTTY s) then [HIDE E] else [] in
  let both := if truthy (WriteStream.isTTY s) then [HIDE E; SHOW E] else [] in
  written (hideCursor E m0) = (WriteStream.written s ++ once)%list /\
  written (hideCursor E (hideCursor E m0)) = (WriteStream.written s ++ once)%list /\
  hideCursor E (hideCursor E m0) = hideCursor E m0 /\
  written (showCursor E (hideCursor E m0)) = (WriteStream.written s ++ both)%list /\
  showCursor E (showCursor E (hideCursor E m0)) = showCursor E (hideCursor E m0) /\
  (forall m, hideCursor E (hideCursor E m) = hideCursor E m) /\
  (forall m, showCursor E (showCursor E m) = showCursor E m).
Proof.
  assert (Hh : forall m, hideCursor E (hideCursor E m) = hideCursor E m).
  { intros m; unfold hideCursor.
    destruct (cursorHidden m) eqn:Hc, (tty m) eqn:Ht; simpl;
      rewrite ?Hc, ?Ht; reflexivity. }
  assert (Hs : forall m, showCursor E (showCursor E m) = showCursor E m).
  { intros m; unfold showCursor.
    destruct (cursorHidden m) eqn:Hc, (tty m) eqn:Ht; simpl;
      rewrite ?Hc, ?Ht; reflexivity. }
  intros m0 once both; subst m0 once both.
  rewrite Hh, Hs.
  unfold hideCursor, showCursor; simpl.
  destruct (truthy (WriteStream.isTTY s)) eqn:Ht; simpl; rewrite ?Ht; simpl;
    rewrite <- ?app_assoc, ?app_nil_r; repeat split; auto.
Qed.

(** C5.  On a sink that is not a terminal, [hideCursor], [showCursor],
    [clearScreen], [clearLine], [moveUp] and [moveToLineStart] (and
    [cleanup]) leave the manager and its sink as they were, whereas
    [write] appends its text to the sink of every manager, terminal or
    not; hence every call that is not a [write] is gated. *)
Theorem non_tty_sink_gets_only_write
    (E : AnsiEscapes) (m : t) (not_tty : tty m = false) :
  hideCursor E m = m /\
  showCursor E m = m /\
  TerminalManager.clearScreen E m = m /\
  clearLine E m = m /\
  (forall n, moveUp E n m = m) /\
  moveToLineStart E m = m /\
  cleanup E m = m /\
  (forall c, (forall text, c <> Write text) -> invoke E c m = m) /\
  (forall m' text, written (write text m') = (written m' ++ [text])%list).
Proof.
  assert (Hops : hideCursor E m = m /\ showCursor E m = m /\
                 TerminalManager.clearScreen E m = m /\ clearLine E m = m /\
                 (forall n, moveUp E n m = m) /\ moveToLineStart E m = m /\
                 cleanup E m = m).
  { unfold cleanup, hideCursor, showCursor, TerminalManager.clearScreen,
      clearLine, moveUp, moveToLineStart.
    rewrite not_tty, !andb_false_r; simpl; repeat split; reflexivity. }
  destruct Hops as (H1 & H2 & H3 & H4 & H5 & H6 & H7).
  repeat split; auto.
  intros c Hc; destruct c; simpl; auto.
  exfalso; apply (Hc text); reflexivity.
Qed.

Lemma non_tty_sink_gets_only_write_witness :
  let E := vt100 no_rendering in
  let m := new a_pipe in
  written (moveUp E 3 (TerminalManager.clearScreen E (hideCursor E m))) = [] /\
  written (write "12 tokens" m) = ["12 tokens"].
Proof.
  intros E m.
  destruct (non_tty_sink_gets_only_write E m eq_refl)
    as (Hh & _ & Hc & _ & Hu & _ & _ & _ & Hw).
  rewrite Hh, Hc, Hu, Hw; split; reflexivity.
Defined.

(** C9.  A fresh manager satisfies the invariant "the cursor-hidden flag
    is true only if the sink is a terminal"; no call changes the sink's
    [isTTY] flag and every call preserves the invariant; so the flag is
    true after a run of calls only on a terminal sink, and there
    [showCursor] sends its sequence exactly when the flag is true. *)
Theorem cursorHidden_only_on_tty (E : AnsiEscapes) :
  (forall s, cursor_invariant (new s)) /\
  (forall c m,
      WriteStream.isTTY (stream (invoke E c m)) = WriteStream.isTTY (stream m)) /\
  (forall c m, cursor_invariant m -> cursor_invariant (invoke E c m)) /\
  (forall s calls,
      cursorHidden (run E calls (new s)) = true ->
      truthy (WriteStream.isTTY s) = true) /\
  (forall s calls,
      let m := run E calls (new s) in
      showCursor E m =
      if cursorHidden m then set_cursorHidden false (emit (SHOW E) m) else m).
Proof.
  split; [exact new_invariant|].
  split; [exact (invoke_isTTY E)|].
  split; [exact (invoke_invariant E)|].
  assert (Hreach : forall s calls,
             cursorHidden (run E calls (new s)) = true ->
             truthy (WriteStream.isTTY s) = true).
  { intros s calls Hh.
    pose proof (run_invariant E calls (new s) (new_invariant s) Hh) as Ht.
    rewrite run_isTTY in Ht; exact Ht. }
  split; [exact Hreach|].
  intros s calls m; unfold showCursor.
  destruct (cursorHidden m) eqn:Hh; [|reflexivity].
  subst m; rewrite run_isTTY; simpl.
  rewrite (Hreach s calls Hh); reflexivity.
Qed.

(** The size getters fall back to 80 columns and 24 rows when the sink
    reports none. *)
Lemma size_defaults (m : t) :
  WriteStream.columns (stream m) = None ->
  WriteStream.rows (stream m) = None ->
  width m = 80 /\ height m = 24.
Proof.
  unfold width, height; intros -> ->; split; reflexivity.
Qed.

Lemma size_defaults_witness :
  width (new a_pipe) = 80 /\ height (new a_pipe) = 24.
Proof. exact (size_defaults (new a_pipe) eq_refl eq_refl). Defined.

End TerminalManagerClaims.

(** * Properties of the progress bar formatter *)

Section StringFacts.

Lemma string_app_assoc (a b c : string) : (a ++ b) ++ c = a ++ b ++ c.
Proof. induction a as [|x a IH]; simpl; [reflexivity | rewrite IH; reflexivity]. Qed.

Lemma string_app_nil_r (a : string) : a ++ "" = a.
Proof. induction a as [|x a IH]; simpl; [reflexivity | rewrite IH; reflexivity]. Qed.

Lemma string_length_app (a b : string) :
  String.length (a ++ b) = (String.length a + String.length b)%nat.
Proof. induction a as [|x a IH]; simpl; [reflexivity | rewrite IH; reflexivity]. Qed.

Lemma spaces_length (n : nat) : String.length (spaces n) = n.
Proof.
  unfold spaces; induction n as [|n IH]; simpl; [reflexivity | f_equal; exact IH].
Qed.

End StringFacts.

Section RuntimeFacts.

Lemma lt_spec (a b : number) : lt a b = true <-> a < b.
Proof.
  unfold lt; rewrite negb_true_iff.
  destruct (Qle_bool b a) eqn:H.
  - apply Qle_bool_iff in H; split; [discriminate | intros Hlt].
    exfalso; apply (Qlt_not_le _ _ Hlt H).
  - split; [intros _ | reflexivity].
    apply Qnot_le_lt; intros Hle.
    apply Qle_bool_iff in Hle; congruence.
Qed.

Lemma ge_spec (a b : number) : ge a b = true <-> b <= a.
Proof. apply Qle_bool_iff. Qed.

Lemma ToIntegerOrInfinity_integer (n : Z) : ToIntegerOrInfinity (inject_Z n) = n.
Proof. unfold ToIntegerOrInfinity; simpl; apply Z.quot_1_r. Qed.

Lemma ToIntegerOrInfinity_difference (a b : Z) :
  ToIntegerOrInfinity (inject_Z a - inject_Z b) = (a - b)%Z.
Proof.
  unfold ToIntegerOrInfinity; simpl; rewrite Z.quot_1_r; lia.
Qed.

Lemma String_repeat_integer (s : string) (n : Z) :
  (0 <= n)%Z ->
  String_repeat s (inject_Z n) = Return (repeat_string s (Z.to_nat n)).
Proof.
  intros Hn; unfold String_repeat; rewrite ToIntegerOrInfinity_integer.
  destruct (Z.ltb_spec n 0); [lia | reflexivity].
Qed.

Lemma String_repeat_difference (s : string) (a b : Z) :
  (b <= a)%Z ->
  String_repeat s (inject_Z a - inject_Z b) =
  Return (repeat_string s (Z.to_nat (a - b))).
Proof.
  intros Hn; unfold String_repeat; rewrite ToIntegerOrInfinity_difference.
  destruct (Z.ltb_spec (a - b) 0); [lia | reflexivity].
Qed.

(** A count that [String.prototype.repeat] accepts yields that many
    copies. *)
Lemma String_repeat_returns (s : string) (count : number) (r : string) :
  String_repeat s count = Return r ->
  r = repeat_string s (Z.to_nat (ToIntegerOrInfinity count)).
Proof.
  unfold String_repeat.
  destruct (ToIntegerOrInfinity count <? 0)%Z; [discriminate|].
  intros H; injection H as <-; reflexivity.
Qed.

(** Rounding a number between [0] and an integer [w] stays there. *)
Lemma Math_round_range (x : number) (w : Z) :
  0 <= x -> x <= inject_Z w ->
  (0 <= Qfloor (x + (1 # 2)) <= w)%Z.
Proof.
  intros H0 Hw; split.
  - change 0%Z with (Qfloor 0).
    apply Qfloor_resp_le; clear Hw; lra.
  - assert (H : inject_Z (Qfloor (x + (1 # 2))) < inject_Z (w + 1)).
    { eapply Qle_lt_trans; [apply Qfloor_le|].
      rewrite inject_Z_plus; change (inject_Z 1) with 1.
      revert Hw; generalize (inject_Z w); intros q Hq; lra. }
    rewrite <- Zlt_Qlt in H; lia.
Qed.

End RuntimeFacts.

Section ProgressBarFacts.
Import ProgressBarSpec.

Variable toString_other : number -> string.

Lemma ratio_nonneg (value max : number) :
  0 <= value -> 0 < max -> 0 <= value / max * 100.
Proof.
  intros Hv Hm.
  apply Qmult_le_0_compat; [|discriminate].
  apply Qmult_le_0_compat; [exact Hv|].
  apply Qinv_le_0_compat, Qlt_le_weak; exact Hm.
Qed.

(** Without a negative value the percentage lies between 0 and 100. *)
Lemma percentage_of_range (value max : number) :
  0 <= value -> 0 <= percentage_of value max <= 100.
Proof.
  intros Hv; unfold percentage_of, gt, Math_min.
  destruct (lt 0 max) eqn:Hm; [|split; discriminate].
  apply lt_spec in Hm.
  pose proof (ratio_nonneg value max Hv Hm) as Hr.
  destruct (Qle_bool 100 (value / max * 100)) eqn:Hc.
  - split; [discriminate | apply Qle_refl].
  - split; [exact Hr|].
    apply Qlt_le_weak, lt_spec; unfold lt; rewrite Hc; reflexivity.
Qed.

(** Without a negative value the code's percentage is the clamped one. *)
Lemma percentage_of_clamps (value max : number) :
  0 <= value -> percentage_of value max == percentage_spec value max.
Proof.
  intros Hv; unfold percentage_of, percentage_spec, clamp, gt, Math_min.
  destruct (lt 0 max) eqn:Hm; [|reflexivity].
  apply lt_spec in Hm.
  pose proof (ratio_nonneg value max Hv Hm) as Hr.
  apply ge_spec in Hr; unfold ge in Hr; unfold lt at 1; rewrite Hr; simpl.
  destruct (Qle_bool 100 (value / max * 100)) eqn:Hc; unfold lt.
  - destruct (Qle_bool (value / max * 100) 100) eqn:Hd; simpl; [|reflexivity].
    apply Qle_bool_iff in Hc, Hd; apply Qle_antisym; assumption.
  - destruct (Qle_bool (value / max * 100) 100) eqn:Hd; simpl; [reflexivity|].
    exfalso.
    assert (H : value / max * 100 < 100)
      by (apply lt_spec; unfold lt; rewrite Hc; reflexivity).
    apply Qlt_le_weak, Qle_bool_iff in H; congruence.
Qed.

(** With a value that is not negative and a width that is a non-negative
    integer both repetitions are accepted and a string is returned. *)
Lemma createProgressBar_returns
    (value max : number) (w : Z) (options : Options) :
  0 <= value -> (0 <= w)%Z ->
  returns (createProgressBar toString_other value max (inject_Z w) options).
Proof.
  intros Hv Hw; unfold createProgressBar, Math_round.
  destruct (percentage_of_range value max Hv) as [Hp0 Hp100].
  set (p := percentage_of value max) in *.
  assert (Hx : 0 <= p / 100 * inject_Z w <= inject_Z w).
  { assert (Hq : 0 <= inject_Z w) by (change 0 with (inject_Z 0); rewrite <- Zle_Qle; exact Hw).
    revert Hq; generalize (inject_Z w); intros q Hq.
    unfold number in *; split.
    - apply Qmult_le_0_compat; [|exact Hq].
      apply Qmult_le_0_compat; [exact Hp0 | discriminate].
    - setoid_replace q with (1 * q) at 2 by ring.
      apply Qmult_le_compat_r; [|exact Hq].
      apply Qle_shift_div_r; [reflexivity | lra]. }
  destruct Hx as [Hx0 Hxw].
  destruct (Math_round_range _ w Hx0 Hxw) as [Hf0 Hfw].
  rewrite String_repeat_integer by exact Hf0; simpl bind.
  rewrite String_repeat_difference by exact Hfw; simpl bind.
  eexists; reflexivity.
Qed.

End ProgressBarFacts.

Lemma percentage_of_clamps_witness :
  percentage_of 150 100 == ProgressBarSpec.percentage_spec 150 100.
Proof. apply (percentage_of_clamps 150 100); discriminate. Defined.

Lemma createProgressBar_returns_witness :
  returns (createProgressBar no_rendering 30 100 (inject_Z 10) noOptions).
Proof.
  apply (createProgressBar_returns no_rendering 30 100 10 noOptions);
    discriminate.
Defined.

Section ProgressBarClaims.
Import ProgressBarSpec.

(** C1.  [createProgressBar(-50, 100, 10)] does not return a string: the
    percentage is -50, the fill width is [Math.round(-5) = -5], and
    [fillChar.repeat(-5)] throws a [RangeError].  (With a value that is
    not negative the call returns: [createProgressBar_returns].) *)
Theorem createProgressBar_negative_value_throws
    (toString_other : number -> string) :
  percentage_of (-50) 100 == -50 /\
  Math_round (percentage_of (-50) 100 / 100 * 10) == -5 /\
  createProgressBar toString_other (-50) 100 10 noOptions = Throw RangeError.
Proof.
  split; [|split].
  - vm_compute; reflexivity.
  - vm_compute; reflexivity.
  - unfold createProgressBar; simpl default.
    replace (String_repeat "█" _) with (@Throw string RangeError)
      by (vm_compute; reflexivity).
    reflexivity.
Qed.

(** C2.  [createProgressBar(-1, 100, 10)] computes the percentage -1,
    where the clamped percentage is 0, and renders it as "-1.0%": the
    code bounds the percentage from above only. *)
Theorem percentage_not_clamped_below (toString_other : number -> string) :
  percentage_of (-1) 100 == -1 /\
  percentage_spec (-1) 100 == 0 /\
  createProgressBar toString_other (-1) 100 10 noOptions =
    Return "[░░░░░░░░░░] -1.0%".
Proof.
  split; [|split]; vm_compute; reflexivity.
Qed.

(** The two instances that the specification gives for the percentage:
    a value above [max] renders as the full bar, and a [max] of zero
    renders as 0.0%. *)
Lemma percentage_examples (toString_other : number -> string) :
  createProgressBar toString_other 150 100 10 noOptions =
    createProgressBar toString_other 100 100 10 noOptions /\
  createProgressBar toString_other 5 0 10 noOptions =
    Return "[░░░░░░░░░░] 0.0%".
Proof. split; vm_compute; reflexivity. Qed.

Lemma color_of_spec (tiers : Colors) (p : number) :
  color_of tiers p = default "" (color_spec tiers p).
Proof.
  unfold color_of, color_spec.
  destruct tiers as [[l|] [m|] [h|] [c|]]; simpl;
    destruct (ge p 90), (ge p 80), (ge p 50); reflexivity.
Qed.

(** C6.  Whenever a bar is returned, whatever the rounding of the
    arithmetic, its color is the first tier, from critical down to low,
    that is supplied and whose threshold (90, 80, 50, none) the computed
    percentage meets, and no color when there is none; the bar is the left
    bracket, that color, the fill cells, the empty cells, the reset
    sequence ESC [ 0 m exactly when the color is not empty, the right
    bracket and the labels of the computed percentage. *)
Theorem color_tiers_high_to_low
    (fl : number -> number) (toString_other : number -> string)
    (value max width : number) (options : Options) (bar : string)
    (returned : Rounded.createProgressBar fl toString_other value max width
                  options = Return bar) :
  let percentage := Rounded.percentage_of fl value max in
  let tiers := default noColors (colors options) in
  let color := default "" (color_spec tiers percentage) in
  let reset := if is_empty color then "" else String (ascii_of_nat 27) "[0m" in
  color_of tiers percentage = color /\
  exists fill empty : nat,
    bar = default "[" (leftBracket options) ++ color
          ++ repeat_string (default "█" (fillChar options)) fill
          ++ repeat_string (default "░" (emptyChar options)) empty
          ++ reset
          ++ default "]" (rightBracket options)
          ++ Rounded.label_text toString_other percentage value max options.
Proof.
  intros percentage tiers color reset.
  split; [apply color_of_spec|].
  revert returned; unfold Rounded.createProgressBar.
  fold percentage; fold tiers; rewrite (color_of_spec tiers percentage); fold color.
  destruct (String_repeat (default "█" (fillChar options)) _) as [f|e] eqn:Hf;
    [|discriminate].
  simpl bind.
  destruct (String_repeat (default "░" (emptyChar options)) _) as [g|e] eqn:Hg;
    [|discriminate].
  simpl bind.
  apply String_repeat_returns in Hf, Hg; subst f g.
  intros H; injection H as <-.
  do 2 eexists.
  unfold Rounded.label_text, reset, RESET_COLOR, ESC.
  destruct (is_empty color) eqn:Hc;
    [destruct color; [|discriminate] |];
    destruct (default true (showPercentage options)),
             (default false (showValues options));
    simpl negb; cbv iota;
    rewrite ?string_app_assoc, ?string_app_nil_r; simpl;
    rewrite ?string_app_assoc, ?string_app_nil_r; reflexivity.
Qed.

Lemma color_tiers_high_to_low_witness :
  let reset := String (ascii_of_nat 27) "[0m" in
  let bar := "[" ++ Rounded.green ++ "███░░░░░░░" ++ reset ++ "] 28.7%" in
  Rounded.createProgressBar Binary64.binary64 no_rendering 23 80 10
    Rounded.low_green = Return bar /\
  color_of (default noColors (colors Rounded.low_green))
    (Rounded.percentage_of Binary64.binary64 23 80) = Rounded.green /\
  exists fill empty : nat,
    bar = "[" ++ Rounded.green ++ repeat_string "█" fill
          ++ repeat_string "░" empty ++ reset ++ "]"
          ++ Rounded.label_text no_rendering
               (Rounded.percentage_of Binary64.binary64 23 80) 23 80
               Rounded.low_green.
Proof.
  split; [vm_compute; reflexivity|].
  exact (color_tiers_high_to_low Binary64.binary64 no_rendering 23 80 10
           Rounded.low_green _ ltac:(vm_compute; reflexivity)).
Defined.

(** C7.  With the default options a bar of width 10 at 0 of 100 is ten
    empty cells and "0.0%", at 100 of 100 ten filled cells and "100.0%",
    and with [showValues] at 50 of 100 five filled cells, five empty
    ones, "50.0%" and "(50/100)". *)
Theorem createProgressBar_examples (toString_other : number -> string) :
  createProgressBar toString_other 0 100 10 noOptions =
    Return "[░░░░░░░░░░] 0.0%" /\
  createProgressBar toString_other 100 100 10 noOptions =
    Return "[██████████] 100.0%" /\
  createProgressBar toString_other 50 100 10 show_values =
    Return "[█████░░░░░] 50.0% (50/100)".
Proof.
  split; [|split]; vm_compute; reflexivity.
Qed.

End ProgressBarClaims.

(** * Properties of the text centering formatter *)

Section CenterTextFacts.

Variable stringWidth : string -> nat.

Lemma ToIntegerOrInfinity_nonneg (x : number) :
  0 <= x -> (0 <= ToIntegerOrInfinity x)%Z.
Proof.
  unfold Qle, ToIntegerOrInfinity; simpl; intros H.
  apply Z.quot_pos; lia.
Qed.

Lemma String_repeat_nonneg (s : string) (count : number) :
  0 <= count ->
  String_repeat s count =
  Return (repeat_string s (Z.to_nat (ToIntegerOrInfinity count))).
Proof.
  intros H; apply ToIntegerOrInfinity_nonneg in H; unfold String_repeat.
  destruct (Z.ltb_spec (ToIntegerOrInfinity count) 0); [lia | reflexivity].
Qed.

(** Both paddings of a text narrower than the width are non-negative. *)
Lemma paddings_nonneg (d width : number) :
  d < width ->
  (0 <= Qfloor ((width - d) / 2))%Z /\
  0 <= width - d - Math_floor ((width - d) / 2).
Proof.
  intros H.
  assert (Hy : 0 <= (width - d) / 2).
  { unfold number in *; apply Qle_shift_div_l; [reflexivity | lra]. }
  split.
  - change 0%Z with (Qfloor 0); apply Qfloor_resp_le; exact Hy.
  - unfold Math_floor.
    pose proof (Qfloor_le ((width - d) / 2)) as Hf.
    revert Hf; generalize (inject_Z (Qfloor ((width - d) / 2))); intros f Hf.
    assert (Hh : (width - d) / 2 <= width - d).
    { unfold number in *; apply Qle_shift_div_r; [reflexivity | lra]. }
    unfold number in *; lra.
Qed.

Lemma centerText_wide (text : string) (width : number) :
  width <= inject_Z (Z.of_nat (stringWidth text)) ->
  centerText stringWidth text width = Return text.
Proof.
  intros H; unfold centerText, ge.
  apply Qle_bool_iff in H; rewrite H; reflexivity.
Qed.

Lemma centerText_narrow (text : string) (width : number) :
  let displayWidth := inject_Z (Z.of_nat (stringWidth text)) in
  let leftPadding := Math_floor ((width - displayWidth) / 2) in
  let rightPadding := width - displayWidth - leftPadding in
  displayWidth < width ->
  centerText stringWidth text width =
  Return (spaces (Z.to_nat (ToIntegerOrInfinity leftPadding)) ++ text
          ++ spaces (Z.to_nat (ToIntegerOrInfinity rightPadding))).
Proof.
  intros d l r H; unfold centerText, ge; fold d.
  destruct (Qle_bool width d) eqn:Hc.
  - apply Qle_bool_iff in Hc; exfalso; exact (Qlt_not_le _ _ H Hc).
  - destruct (paddings_nonneg d width H) as [Hl Hr].
    fold l r; unfold l at 1, Math_floor.
    rewrite String_repeat_integer by exact Hl; simpl bind.
    rewrite (String_repeat_nonneg " " r) by exact Hr; simpl bind.
    unfold l, Math_floor; rewrite ToIntegerOrInfinity_integer; reflexivity.
Qed.

(** With an integer width the paddings are the integer halves. *)
Lemma centerText_integer_width (text : string) (w : Z) :
  let d := Z.of_nat (stringWidth text) in
  (d < w)%Z ->
  centerText stringWidth text (inject_Z w) =
  Return (spaces (Z.to_nat ((w - d) / 2)) ++ text
          ++ spaces (Z.to_nat (w - d - (w - d) / 2))).
Proof.
  intros d H.
  assert (Hq : inject_Z d < inject_Z w) by (rewrite <- Zlt_Qlt; exact H).
  rewrite centerText_narrow by exact Hq; fold d.
  assert (Hf : Qfloor ((inject_Z w - inject_Z d) / 2) = ((w - d) / 2)%Z).
  { rewrite Zdiv_Qdiv; apply Qfloor_comp.
    unfold Z.sub; rewrite inject_Z_plus, inject_Z_opp; reflexivity. }
  unfold Math_floor; rewrite Hf, ToIntegerOrInfinity_integer.
  replace (ToIntegerOrInfinity
             (inject_Z w - inject_Z d - inject_Z ((w - d) / 2)))
    with (w - d - (w - d) / 2)%Z; [reflexivity|].
  unfold ToIntegerOrInfinity; simpl; rewrite Z.quot_1_r; lia.
Qed.

End CenterTextFacts.

Section CenterTextClaims.

(** C8.  A text whose display width is at least the width is returned
    unchanged.  Otherwise the result is the text between
    [' '.repeat(leftPadding)] and [' '.repeat(rightPadding)], where
    [leftPadding = floor((width - displayWidth) / 2)] and
    [rightPadding = width - displayWidth - leftPadding]; with an integer
    width these are that many spaces, the odd one going to the right.  So
    "hi", two columns wide, is centered to "  hi  " in 6 columns and to
    "  hi   " in 7. *)
Theorem centerText_pads_or_returns_text
    (stringWidth : string -> nat) (text : string) (width : number) :
  let displayWidth := inject_Z (Z.of_nat (stringWidth text)) in
  let leftPadding := Math_floor ((width - displayWidth) / 2) in
  let rightPadding := width - displayWidth - leftPadding in
  (width <= displayWidth -> centerText stringWidth text width = Return text) /\
  (displayWidth < width ->
   String_repeat " " leftPadding =
     Return (spaces (Z.to_nat (ToIntegerOrInfinity leftPadding))) /\
   String_repeat " " rightPadding =
     Return (spaces (Z.to_nat (ToIntegerOrInfinity rightPadding))) /\
   centerText stringWidth text width =
     Return (spaces (Z.to_nat (ToIntegerOrInfinity leftPadding)) ++ text
             ++ spaces (Z.to_nat (ToIntegerOrInfinity rightPadding)))) /\
  (forall w : Z,
      width = inject_Z w ->
      let d := Z.of_nat (stringWidth text) in
      (d < w)%Z ->
      centerText stringWidth text width =
        Return (spaces (Z.to_nat ((w - d) / 2)) ++ text
                ++ spaces (Z.to_nat (w - d - (w - d) / 2)))) /\
  (stringWidth "hi" = 2%nat ->
   centerText stringWidth "hi" 6 = Return "  hi  " /\
   centerText stringWidth "hi" 7 = Return "  hi   ").
Proof.
  intros displayWidth leftPadding rightPadding.
  split; [apply centerText_wide|].
  split.
  { intros H.
    destruct (paddings_nonneg displayWidth width H) as [Hl Hr].
    split; [|split].
    - unfold leftPadding, Math_floor at 1.
      rewrite String_repeat_integer by exact Hl.
      unfold Math_floor; rewrite ToIntegerOrInfinity_integer; reflexivity.
    - apply String_repeat_nonneg; exact Hr.
    - apply centerText_narrow; exact H. }
  split.
  { intros w -> d H; apply centerText_integer_width; exact H. }
  intros Hhi; split.
  - change (6 : number) with (inject_Z 6).
    rewrite (centerText_integer_width stringWidth "hi" 6) by (rewrite Hhi; reflexivity).
    rewrite Hhi; reflexivity.
  - change (7 : number) with (inject_Z 7).
    rewrite (centerText_integer_width stringWidth "hi" 7) by (rewrite Hhi; reflexivity).
    rewrite Hhi; reflexivity.
Qed.

Lemma centerText_pads_or_returns_text_witness :
  centerText String.length "hi" 6 = Return "  hi  " /\
  centerText String.length "hi" 7 = Return "  hi   ".
Proof.
  destruct (centerText_pads_or_returns_text String.length "hi" 7)
    as (_ & _ & _ & Hhi).
  exact (Hhi eq_refl).
Defined.


Lemma length_padding_adds (l r : nat) (t : string) :
  String.length (spaces l ++ t ++ spaces r) = (l + String.length t + r)%nat.
Proof. rewrite !string_length_app, !spaces_length; lia. Qed.



End CenterTextClaims.

(** * Runs of calls on a manager *)

Section TerminalManagerRunFacts.
Import TerminalManager TerminalManagerSpec TerminalManagerRuns.

Variable E : AnsiEscapes.

Local Abbreviation written m := (WriteStream.written (stream m)).
Local Abbreviation tty m := (truthy (WriteStream.isTTY (stream m))).

(** One call appends at most two chunks and touches nothing else of the
    sink. *)
Lemma invoke_appends (c : call) (m : t) :
  exists out,
    written (invoke E c m) = (written m ++ out)%list /\
    (List.length out <= 2)%nat /\
    WriteStream.columns (stream (invoke E c m)) = WriteStream.columns (stream m) /\
    WriteStream.rows (stream (invoke E c m)) = WriteStream.rows (stream m).
Proof.
  destruct c; simpl;
    unfold cleanup, hideCursor, showCursor, TerminalManager.clearScreen,
      clearLine, moveUp, moveToLineStart, write;
    repeat match goal with
           | |- context [if ?b then _ else _] => destruct b
           end;
    simpl;
    first [ exists []; rewrite app_nil_r; simpl; repeat split; lia
          | eexists [_]; simpl; repeat split; lia
          | eexists [_; _]; simpl; rewrite <- app_assoc; simpl; repeat split; lia ].
Qed.

(** Off a terminal a call other than [write] changes nothing. *)
Lemma invoke_off_terminal (c : call) (m : t) :
  tty m = false ->
  invoke E c m = match c with
                 | Write text => write text m
                 | _ => m
                 end.
Proof.
  intros H; destruct c; simpl; try reflexivity;
    unfold cleanup, hideCursor, showCursor, TerminalManager.clearScreen,
      clearLine, moveUp, moveToLineStart;
    rewrite H, ?andb_false_r; reflexivity.
Qed.

(** The flag after one call. *)
Lemma invoke_cursorHidden (c : call) (m : t) :
  cursor_invariant m ->
  cursorHidden (invoke E c m) = tty m && settles_hidden (cursorHidden m) c.
Proof.
  unfold cursor_invariant; intros Hinv.
  destruct (cursorHidden m) eqn:Hc.
  - rewrite (Hinv eq_refl).
    destruct c; simpl;
      unfold cleanup, hideCursor, showCursor, TerminalManager.clearScreen,
        clearLine, moveUp, moveToLineStart, write;
      rewrite ?Hc, ?(Hinv eq_refl); simpl; try reflexivity; try exact Hc;
      destruct (gt lines 0); simpl; exact Hc.
  - destruct (tty m) eqn:Ht;
      destruct c; simpl;
      unfold cleanup, hideCursor, showCursor, TerminalManager.clearScreen,
        clearLine, moveUp, moveToLineStart, write;
      rewrite ?Hc, ?Ht; simpl; try reflexivity; try exact Hc;
      destruct (gt lines 0); simpl; exact Hc.
Qed.

End TerminalManagerRunFacts.

Section TerminalManagerRunProperties.
Import TerminalManager TerminalManagerSpec TerminalManagerRuns.

Local Abbreviation written m := (WriteStream.written (stream m)).
Local Abbreviation tty m := (truthy (WriteStream.isTTY (stream m))).

(** A run of calls only appends to what the sink already holds, at most
    two chunks per call, and leaves the sink's [isTTY], [columns] and
    [rows] as they were: nothing is buffered, dropped or rewritten. *)
Theorem run_appends_only (E : AnsiEscapes) (calls : list call) (m : t) :
  exists out,
    written (run E calls m) = (written m ++ out)%list /\
    (List.length out <= 2 * List.length calls)%nat /\
    WriteStream.isTTY (stream (run E calls m)) = WriteStream.isTTY (stream m) /\
    WriteStream.columns (stream (run E calls m)) = WriteStream.columns (stream m) /\
    WriteStream.rows (stream (run E calls m)) = WriteStream.rows (stream m).
Proof.
  induction calls as [|c calls IH] using rev_ind.
  - exists []; simpl; rewrite app_nil_r; repeat split; lia.
  - destruct IH as (out & Hw & Hn & Ht & Hc & Hr).
    rewrite run_snoc.
    destruct (invoke_appends E c (run E calls m)) as (o & Hw' & Hn' & Hc' & Hr').
    exists (out ++ o)%list.
    rewrite Hw', Hw, Hc', Hr', invoke_isTTY, app_assoc, !length_app; simpl.
    repeat split; auto; lia.
Qed.

(** On a sink that is not a terminal the output of a run is exactly the
    texts passed to [write], in call order, and the flag stays as it
    was: no escape sequence reaches a pipe or a file. *)
Theorem run_off_terminal
    (E : AnsiEscapes) (calls : list call) (m : t) (not_tty : tty m = false) :
  written (run E calls m) = (written m ++ written_texts calls)%list /\
  cursorHidden (run E calls m) = cursorHidden m.
Proof.
  induction calls as [|c calls IH] using rev_ind.
  - simpl; rewrite app_nil_r; split; reflexivity.
  - destruct IH as [Hw Hc].
    rewrite run_snoc, invoke_off_terminal by (rewrite run_isTTY; exact not_tty).
    unfold written_texts; rewrite flat_map_app; fold (written_texts calls).
    destruct c; simpl; rewrite ?app_nil_r; try (split; assumption).
    rewrite Hw, app_assoc; split; [reflexivity | exact Hc].
Qed.

Lemma run_off_terminal_witness :
  let E := vt100 no_rendering in
  written (run E [HideCursor; Write "a"; ClearScreen; MoveUp 2; Write "b"; Cleanup]
             (new a_pipe)) = ["a"; "b"].
Proof.
  intros E.
  destruct (run_off_terminal E
              [HideCursor; Write "a"; ClearScreen; MoveUp 2; Write "b"; Cleanup]
              (new a_pipe) eq_refl) as [Hw _].
  exact Hw.
Defined.

(** After any run of calls on a fresh manager the flag is true exactly
    when the sink is a terminal and the last [hideCursor], [showCursor] or
    [cleanup] call of the run is a [hideCursor]; [write], the clearing and
    the moving calls never change it.  A [cleanup] after the run sends the
    show-cursor sequence in exactly that case, and nothing otherwise. *)
Theorem run_cursorHidden (E : AnsiEscapes) (s : WriteStream.t) (calls : list call) :
  let m := run E calls (new s) in
  let hidden := truthy (WriteStream.isTTY s) && ends_hidden calls in
  cursorHidden m = hidden /\
  written (cleanup E m) =
    (written m ++ if hidden then [TERMINAL_CONTROL.SHOW_CURSOR E] else [])%list.
Proof.
  assert (Hflag : cursorHidden (run E calls (new s)) =
                  truthy (WriteStream.isTTY s) && ends_hidden calls).
  { unfold ends_hidden.
    induction calls as [|c calls IH] using rev_ind.
    - simpl; rewrite andb_false_r; reflexivity.
    - rewrite run_snoc, fold_left_app; simpl.
      rewrite invoke_cursorHidden by (apply run_invariant, new_invariant).
      rewrite run_isTTY, IH; simpl.
      destruct (truthy (WriteStream.isTTY s)); [|reflexivity].
      destruct c; reflexivity. }
  intros m hidden; split; [exact Hflag|].
  unfold cleanup, showCursor; fold m in Hflag.
  rewrite Hflag; subst m; rewrite run_isTTY; simpl; fold hidden.
  unfold hidden.
  destruct (truthy (WriteStream.isTTY s)), (ends_hidden calls); simpl;
    rewrite ?app_nil_r; reflexivity.
Qed.

(** After any run of calls on a fresh manager, [cleanup] leaves the flag
    false, sends at most one chunk, and a second [cleanup] or a
    [showCursor] after it changes nothing. *)
Theorem cleanup_after_any_run (E : AnsiEscapes) (s : WriteStream.t) (calls : list call) :
  let m := run E calls (new s) in
  cursorHidden (cleanup E m) = false /\
  (List.length (written (cleanup E m)) <= S (List.length (written m)))%nat /\
  cleanup E (cleanup E m) = cleanup E m /\
  showCursor E (cleanup E m) = cleanup E m.
Proof.
  intros m.
  assert (Hv : cursorHidden (cleanup E m) = false)
    by (apply showCursor_visible, run_invariant, new_invariant).
  split; [exact Hv|].
  split.
  - unfold cleanup, showCursor.
    destruct (cursorHidden m && tty m); simpl; [rewrite length_app; simpl|]; lia.
  - assert (Hs : showCursor E (cleanup E m) = cleanup E m)
      by (unfold showCursor at 1; rewrite Hv; reflexivity).
    split; exact Hs.
Qed.

(** [moveUp] with a count that is not positive changes nothing, on a
    terminal too; with a positive count it sends the move-up sequence for
    that count to a terminal and nothing to any other sink. *)
Theorem moveUp_only_positive (E : AnsiEscapes) (lines : number) (m : t) :
  (lines <= 0 -> moveUp E lines m = m) /\
  (0 < lines ->
   written (moveUp E lines m) =
   (written m ++ if tty m then [TERMINAL_CONTROL.MOVE_UP E lines] else [])%list).
Proof.
  unfold moveUp, gt; split; intros H.
  - assert (Hl : lt 0 lines = false).
    { destruct (lt 0 lines) eqn:Hl; [|reflexivity].
      apply lt_spec in Hl; exfalso; exact (Qlt_not_le _ _ Hl H). }
    rewrite Hl, andb_false_r; reflexivity.
  - apply lt_spec in H; rewrite H, andb_true_r.
    destruct (tty m); simpl; [reflexivity | rewrite app_nil_r; reflexivity].
Qed.

(** The size getters never return zero: a reported size that is not zero
    is returned as it is, and a missing or zero one is replaced by 80
    columns and 24 rows. *)
Theorem size_never_zero (m : t) :
  ~ width m == 0 /\ ~ height m == 0 /\
  (forall c, WriteStream.columns (stream m) = Some c -> ~ c == 0 -> width m = c) /\
  (forall r, WriteStream.rows (stream m) = Some r -> ~ r == 0 -> height m = r) /\
  (forall c, WriteStream.columns (stream m) = Some c -> c == 0 -> width m = 80) /\
  (forall r, WriteStream.rows (stream m) = Some r -> r == 0 -> height m = 24).
Proof.
  unfold width, height, or_default.
  repeat split.
  - destruct (WriteStream.columns (stream m)) as [c|]; [|discriminate].
    destruct (Qeq_bool c 0) eqn:H; [discriminate | apply Qeq_bool_neq; exact H].
  - destruct (WriteStream.rows (stream m)) as [r|]; [|discriminate].
    destruct (Qeq_bool r 0) eqn:H; [discriminate | apply Qeq_bool_neq; exact H].
  - intros c -> H.
    destruct (Qeq_bool c 0) eqn:Hc; [|reflexivity].
    exfalso; apply H, Qeq_bool_eq; exact Hc.
  - intros r -> H.
    destruct (Qeq_bool r 0) eqn:Hr; [|reflexivity].
    exfalso; apply H, Qeq_bool_eq; exact Hr.
  - intros c -> H; apply Qeq_eq_bool in H; rewrite H; reflexivity.
  - intros r -> H; apply Qeq_eq_bool in H; rewrite H; reflexivity.
Qed.

End TerminalManagerRunProperties.

(** * The cells of the progress bar *)

Section ProgressBarCellFacts.
Import ProgressBarSpec ProgressBarShape.

Variable toString_other : number -> string.

(** The cap at 100 holds for every input. *)
Lemma percentage_of_le_100 (value max : number) : percentage_of value max <= 100.
Proof.
  unfold percentage_of, Math_min.
  destruct (gt max 0); [|discriminate].
  destruct (Qle_bool 100 (value / max * 100)) eqn:Hc; [apply Qle_refl|].
  apply Qlt_le_weak, lt_spec; unfold lt; rewrite Hc; reflexivity.
Qed.

Lemma percentage_of_monotone (v1 v2 max : number) :
  v1 <= v2 -> percentage_of v1 max <= percentage_of v2 max.
Proof.
  intros H; unfold percentage_of, gt, Math_min.
  destruct (lt 0 max) eqn:Hm; [|apply Qle_refl].
  apply lt_spec in Hm.
  assert (Hr : v1 / max * 100 <= v2 / max * 100).
  { apply Qmult_le_compat_r; [|discriminate].
    apply Qmult_le_compat_r; [exact H|].
    apply Qinv_le_0_compat, Qlt_le_weak; exact Hm. }
  destruct (Qle_bool 100 (v1 / max * 100)) eqn:H1,
           (Qle_bool 100 (v2 / max * 100)) eqn:H2.
  - apply Qle_refl.
  - apply Qle_bool_iff in H1.
    assert (H3 : Qle_bool 100 (v2 / max * 100) = true)
      by (apply Qle_bool_iff; eapply Qle_trans; eassumption).
    congruence.
  - apply Qlt_le_weak, lt_spec; unfold lt; rewrite H1; reflexivity.
  - exact Hr.
Qed.

Lemma Qfloor_plus_half (z : Z) : Qfloor (inject_Z z + (1 # 2)) = z.
Proof.
  unfold Qfloor, Qplus, inject_Z; simpl.
  symmetry; apply Z.div_unique with 1%Z; lia.
Qed.

(** With an integer width the function returns the assembled bar when the
    rounded fill width lies between 0 and the width, and throws
    otherwise. *)
Lemma createProgressBar_integer_width
    (value max : number) (w : Z) (options : Options) :
  let f := Qfloor (percentage_of value max / 100 * inject_Z w + (1 # 2)) in
  createProgressBar toString_other value max (inject_Z w) options =
  if ((f <? 0) || (w <? f))%Z then Throw RangeError
  else Return (bar_of toString_other value max options
                 (Z.to_nat f) (Z.to_nat (w - f))).
Proof.
  intros f; unfold createProgressBar, Math_round; fold f.
  unfold String_repeat at 1; rewrite ToIntegerOrInfinity_integer.
  destruct (f <? 0)%Z; [reflexivity|]; simpl bind.
  unfold String_repeat; rewrite ToIntegerOrInfinity_difference.
  replace (w - f <? 0)%Z with (w <? f)%Z
    by (destruct (Z.ltb_spec w f), (Z.ltb_spec (w - f) 0); lia).
  destruct (w <? f)%Z; [reflexivity|]; simpl.
  unfold bar_of, labels.
  set (color := color_of _ _).
  destruct (is_empty color) eqn:Hc;
    [destruct color; [|discriminate] |];
    destruct (default true (showPercentage options)),
             (default false (showValues options));
    simpl negb; cbv iota;
    rewrite ?string_app_assoc, ?string_app_nil_r; simpl;
    rewrite ?string_app_assoc, ?string_app_nil_r; reflexivity.
Qed.

End ProgressBarCellFacts.

Section ProgressBarCellProperties.
Import ProgressBarSpec ProgressBarShape.

Lemma Math_round_le (x : number) (w : Z) :
  x <= inject_Z w -> (Qfloor (x + (1 # 2)) <= w)%Z.
Proof.
  intros Hw.
  assert (H : inject_Z (Qfloor (x + (1 # 2))) < inject_Z (w + 1)).
  { eapply Qle_lt_trans; [apply Qfloor_le|].
    rewrite inject_Z_plus; change (inject_Z 1) with 1.
    revert Hw; generalize (inject_Z w); intros q Hq; unfold number in *; lra. }
  rewrite <- Zlt_Qlt in H; lia.
Qed.

Lemma Qfloor_negative (x : number) : x < 0 -> (Qfloor x < 0)%Z.
Proof.
  intros H; rewrite Zlt_Qlt.
  eapply Qle_lt_trans; [apply Qfloor_le | exact H].
Qed.

Lemma percentage_of_overflow (value max : number) :
  0 < max -> max <= value -> percentage_of value max = 100.
Proof.
  intros capacity overflow; unfold percentage_of, gt, Math_min.
  rewrite (proj2 (lt_spec 0 max) capacity).
  assert (Hr : 100 <= value / max * 100).
  { assert (H1 : 1 <= value / max)
      by (apply Qle_shift_div_l;
          [exact capacity | rewrite Qmult_1_l; exact overflow]).
    revert H1; generalize (value / max); intros r H1; unfold number in *; lra. }
  apply Qle_bool_iff in Hr; rewrite Hr; reflexivity.
Qed.

(** A value at or above a positive [max] gives the percentage 100 and a
    bar whose cells are all filled. *)
Theorem overflow_fills_the_bar
    (toString_other : number -> string)
    (value max : number) (w : Z) (options : Options)
    (capacity : 0 < max) (overflow : max <= value) (width_ok : (0 <= w)%Z) :
  percentage_of value max = 100 /\
  createProgressBar toString_other value max (inject_Z w) options =
  Return (bar_of toString_other value max options (Z.to_nat w) 0).
Proof.
  pose proof (percentage_of_overflow value max capacity overflow) as Hp.
  split; [exact Hp|].
  assert (Hf : Qfloor (percentage_of value max / 100 * inject_Z w + (1 # 2)) = w).
  { rewrite Hp; transitivity (Qfloor (inject_Z w + (1 # 2)));
      [|apply Qfloor_plus_half].
    apply Qfloor_comp; unfold number; field. }
  rewrite createProgressBar_integer_width; cbv zeta; rewrite Hf.
  rewrite Z.ltb_irrefl, Z.sub_diag.
  destruct (Z.ltb_spec w 0); [lia | reflexivity].
Qed.

Lemma overflow_fills_the_bar_witness :
  percentage_of 150 100 = 100 /\
  createProgressBar no_rendering 150 100 (inject_Z 10) plain =
  Return (bar_of no_rendering 150 100 plain (Z.to_nat 10) 0).
Proof.
  apply (overflow_fills_the_bar no_rendering 150 100 10 plain);
    [reflexivity | discriminate | discriminate].
Defined.

(** Unless the values are shown, a value above a positive [max] is
    rendered exactly as the value [max] itself, for every width. *)
Theorem overflow_renders_as_full
    (toString_other : number -> string)
    (value max width : number) (options : Options)
    (capacity : 0 < max) (overflow : max <= value)
    (no_values : default false (showValues options) = false) :
  createProgressBar toString_other value max width options =
  createProgressBar toString_other max max width options.
Proof.
  unfold createProgressBar.
  rewrite (percentage_of_overflow value max capacity overflow).
  rewrite (percentage_of_overflow max max capacity (Qle_refl max)).
  rewrite no_values; reflexivity.
Qed.

Lemma overflow_renders_as_full_witness :
  createProgressBar no_rendering 150 100 10 noOptions =
  createProgressBar no_rendering 100 100 10 noOptions.
Proof.
  apply (overflow_renders_as_full no_rendering 150 100 10 noOptions);
    [reflexivity | discriminate | reflexivity].
Defined.

(** A value of zero, or a [max] that is not positive (whatever the
    value, negative ones included), gives the percentage 0 and a bar whose
    cells are all empty. *)
Theorem nothing_used_empties_the_bar
    (toString_other : number -> string)
    (value max : number) (w : Z) (options : Options)
    (nothing : value == 0 \/ max <= 0) (width_ok : (0 <= w)%Z) :
  percentage_of value max == 0 /\
  createProgressBar toString_other value max (inject_Z w) options =
  Return (bar_of toString_other value max options 0 (Z.to_nat w)).
Proof.
  assert (Hp : percentage_of value max == 0).
  { unfold percentage_of, gt.
    destruct (lt 0 max) eqn:Hm.
    - apply lt_spec in Hm.
      destruct nothing as [Hv | Hle]; [|exfalso; exact (Qlt_not_le _ _ Hm Hle)].
      assert (Hr : value / max * 100 == 0) by (rewrite Hv; unfold Qdiv; ring).
      unfold Math_min; rewrite Hr; simpl; exact Hr.
    - reflexivity. }
  split; [exact Hp|].
  assert (Hf : Qfloor (percentage_of value max / 100 * inject_Z w + (1 # 2)) = 0%Z).
  { transitivity (Qfloor (1 # 2)); [|reflexivity].
    apply Qfloor_comp; rewrite Hp; unfold Qdiv; ring. }
  rewrite createProgressBar_integer_width; cbv zeta; rewrite Hf, Z.sub_0_r.
  destruct (Z.ltb_spec w 0); [lia | reflexivity].
Qed.

Lemma nothing_used_empties_the_bar_witness :
  percentage_of (-5) 0 == 0 /\
  createProgressBar no_rendering (-5) 0 (inject_Z 10) plain =
  Return (bar_of no_rendering (-5) 0 plain 0 (Z.to_nat 10)).
Proof.
  apply (nothing_used_empties_the_bar no_rendering (-5) 0 10 plain);
    [right; discriminate | discriminate].
Defined.

(** For a width that is not negative the fill width never shrinks when
    the value grows. *)
Theorem fill_width_monotone
    (v1 v2 max width : number) (grows : v1 <= v2) (width_ok : 0 <= width) :
  fillWidth_of v1 max width <= fillWidth_of v2 max width.
Proof.
  unfold fillWidth_of, Math_round.
  rewrite <- Zle_Qle; apply Qfloor_resp_le.
  apply Qplus_le_l, Qmult_le_compat_r; [|exact width_ok].
  apply Qmult_le_compat_r; [|discriminate].
  apply percentage_of_monotone; exact grows.
Qed.

Lemma fill_width_monotone_witness :
  fillWidth_of 30 100 10 <= fillWidth_of 60 100 10.
Proof.
  apply (fill_width_monotone 30 60 100 10); discriminate.
Defined.

End ProgressBarCellProperties.

(** * Centering: totality, balance and idempotence *)

Section CenterTextProperties.

(** Centering in an integer width wider than the text puts the text
    between [l] and [r] spaces with [l <= r <= l + 1]: the paddings differ
    by at most one space, the extra one on the right. *)
Theorem centerText_balanced
    (stringWidth : string -> nat) (text : string) (w : Z)
    (narrower : (Z.of_nat (stringWidth text) < w)%Z) :
  exists l r : nat,
    centerText stringWidth text (inject_Z w) =
      Return (spaces l ++ text ++ spaces r) /\
    (l <= r <= l + 1)%nat /\
    Z.of_nat (l + r) = (w - Z.of_nat (stringWidth text))%Z.
Proof.
  set (d := Z.of_nat (stringWidth text)) in *.
  exists (Z.to_nat ((w - d) / 2)), (Z.to_nat (w - d - (w - d) / 2)).
  split; [apply centerText_integer_width; exact narrower|].
  pose proof (Z.div_mod (w - d) 2 ltac:(lia)) as Hdm.
  pose proof (Z.mod_pos_bound (w - d) 2 ltac:(lia)) as Hb.
  assert (Hh : (0 <= (w - d) / 2)%Z) by (apply Z.div_pos; lia).
  split; lia.
Qed.

Lemma centerText_balanced_witness :
  exists l r : nat,
    centerText String.length "abc" (inject_Z 8) =
      Return (spaces l ++ "abc" ++ spaces r) /\
    (l <= r <= l + 1)%nat /\
    Z.of_nat (l + r) = (8 - Z.of_nat (String.length "abc"))%Z.
Proof.
  apply (centerText_balanced String.length "abc" 8); reflexivity.
Defined.

(** Provided the display width adds up over space padding, centering is
    idempotent for an integer width: centering the centered text again
    returns it unchanged. *)
Theorem centerText_idempotent
    (stringWidth : string -> nat)
    (padding_adds : forall (l r : nat) (t : string),
        stringWidth (spaces l ++ t ++ spaces r) = (l + stringWidth t + r)%nat)
    (text : string) (w : Z) (padded : string)
    (centered : centerText stringWidth text (inject_Z w) = Return padded) :
  centerText stringWidth padded (inject_Z w) = Return padded.
Proof.
  set (d := Z.of_nat (stringWidth text)).
  destruct (Z.lt_ge_cases d w) as [Hn | Hw].
  - rewrite centerText_integer_width in centered by exact Hn; fold d in centered.
    injection centered as <-.
    apply centerText_wide; rewrite <- Zle_Qle, padding_adds.
    pose proof (Z.div_mod (w - d) 2 ltac:(lia)) as Hdm.
    pose proof (Z.mod_pos_bound (w - d) 2 ltac:(lia)) as Hb.
    assert (Hh : (0 <= (w - d) / 2)%Z) by (apply Z.div_pos; lia).
    fold d; lia.
  - assert (Hq : inject_Z w <= inject_Z d) by (rewrite <- Zle_Qle; exact Hw).
    rewrite centerText_wide in centered by exact Hq.
    injection centered as <-.
    apply centerText_wide; exact Hq.
Qed.

Lemma centerText_idempotent_witness :
  centerText String.length "  hi   " (inject_Z 7) = Return "  hi   ".
Proof.
  apply (centerText_idempotent String.length length_padding_adds "hi" 7).
  vm_compute; reflexivity.
Defined.

End CenterTextProperties.

(** * The formatters under rounding *)

Section RoundedFacts.

Variable fl : number -> number.
Hypothesis laws : Rounded.rounding_laws fl.

Lemma exact_rounding_laws : Rounded.rounding_laws Rounded.exact.
Proof.
  split; unfold Rounded.exact.
  - intros x y H; exact H.
  - intros x; reflexivity.
  - intros z _; reflexivity.
Qed.

(** Without rounding the formatters are the exact ones. *)
Lemma rounded_exact_createProgressBar
    (toString_other : number -> string)
    (value max width : number) (options : Options) :
  Rounded.createProgressBar Rounded.exact toString_other value max width options
  = createProgressBar toString_other value max width options.
Proof. reflexivity. Qed.

Lemma rounded_exact_centerText
    (stringWidth : string -> nat) (text : string) (width : number) :
  Rounded.centerText Rounded.exact stringWidth text width
  = centerText stringWidth text width.
Proof. reflexivity. Qed.

Lemma fl_zero : fl 0 == 0.
Proof. apply (Rounded.fl_integer fl laws 0); discriminate. Qed.

Lemma fl_one : fl 1 == 1.
Proof. apply (Rounded.fl_integer fl laws 1); discriminate. Qed.

Lemma fl_nonneg (x : number) : 0 <= x -> 0 <= fl x.
Proof.
  intros H; rewrite <- fl_zero; apply (Rounded.fl_monotone fl laws); exact H.
Qed.

Lemma fl_le_integer (x : number) (z : Z) :
  (Z.abs z <= 2 ^ 53)%Z -> x <= inject_Z z -> fl x <= inject_Z z.
Proof.
  intros Hz H; rewrite <- (Rounded.fl_integer fl laws z Hz).
  apply (Rounded.fl_monotone fl laws); exact H.
Qed.

Lemma ToIntegerOrInfinity_of_integer (x : number) (z : Z) :
  x == inject_Z z -> ToIntegerOrInfinity x = z.
Proof.
  unfold Qeq, ToIntegerOrInfinity; simpl; intros H.
  rewrite Z.mul_1_r in H; rewrite H; apply Z.quot_mul; discriminate.
Qed.

Lemma ToIntegerOrInfinity_negative (x : number) :
  x <= -1 -> (ToIntegerOrInfinity x < 0)%Z.
Proof.
  unfold Qle, ToIntegerOrInfinity; simpl; intros H.
  rewrite Z.mul_1_r in H.
  assert (Hq : (- Qnum x ÷ Z.pos (Qden x) >= 1)%Z).
  { apply Z.le_ge, Z.quot_le_lower_bound; lia. }
  rewrite Z.quot_opp_l in Hq by discriminate; lia.
Qed.

(** The percentage never exceeds 100, whatever the rounding. *)
Lemma rounded_percentage_le_100 (value max : number) :
  Rounded.percentage_of fl value max <= 100.
Proof.
  unfold Rounded.percentage_of, Math_min.
  destruct (gt max 0); [|discriminate].
  destruct (Qle_bool 100 _) eqn:Hc; [apply Qle_refl|].
  apply Qlt_le_weak, lt_spec; unfold lt; rewrite Hc; reflexivity.
Qed.

(** The scaled percentage stays at or below a width that is not
    negative. *)
Lemma rounded_scaled_le_width (value max : number) (w : Z) :
  (0 <= w <= 2 ^ 53)%Z ->
  Rounded.mul fl (Rounded.div fl (Rounded.percentage_of fl value max) 100)
    (inject_Z w) <= inject_Z w.
Proof.
  intros Hw; unfold Rounded.mul, Rounded.div.
  apply fl_le_integer; [lia|].
  assert (H1 : fl (Rounded.percentage_of fl value max / 100) <= 1).
  { change 1 with (inject_Z 1); apply fl_le_integer; [discriminate|].
    pose proof (rounded_percentage_le_100 value max) as Hp.
    change (inject_Z 1) with 1.
    apply Qle_shift_div_r; [reflexivity | rewrite Qmult_1_l; exact Hp]. }
  assert (Hq : 0 <= inject_Z w)
    by (change 0 with (inject_Z 0); rewrite <- Zle_Qle; lia).
  rewrite <- (Qmult_1_l (inject_Z w)) at 2.
  apply Qmult_le_compat_r; assumption.
Qed.

End RoundedFacts.

(** * Rounding to the nearest double is monotone and keeps the doubles *)

Section Binary64Facts.
Import Binary64.

Lemma pow2_pos (k : Z) : 0 < 2 ^ k.
Proof. apply Qpower_0_lt; reflexivity. Qed.

Lemma pow2_plus (a b : Z) : 2 ^ (a + b) == 2 ^ a * 2 ^ b.
Proof. apply Qpower_plus; discriminate. Qed.

Lemma pow2_le (a b : Z) : (a <= b)%Z -> 2 ^ a <= 2 ^ b.
Proof. intros H; apply Qpower_le_compat_l; [exact H | discriminate]. Qed.

Lemma pow2_lt (a b : Z) : (a < b)%Z -> 2 ^ a < 2 ^ b.
Proof. intros H; apply Qpower_lt_compat_l; [exact H | reflexivity]. Qed.

Lemma pow2_lt_inv (a b : Z) : 2 ^ a < 2 ^ b -> (a < b)%Z.
Proof. intros H; apply (Qpower_lt_compat_l_inv 2); [exact H | reflexivity]. Qed.

Lemma pow2_Z (k : Z) : (0 <= k)%Z -> 2 ^ k == inject_Z (2 ^ k).
Proof. intros H; rewrite Zpower_Qpower by exact H; reflexivity. Qed.

Lemma ilog2_spec (a : Q) : 0 < a -> 2 ^ ilog2 a <= a /\ a < 2 ^ (ilog2 a + 1).
Proof.
  intros Ha.
  destruct a as [n d].
  assert (Hn : (0 < n)%Z) by (unfold Qlt in Ha; simpl in Ha; lia).
  unfold ilog2; simpl Qnum; simpl Qden.
  set (ln := Z.log2 n); set (ld := Z.log2 (Z.pos d)).
  destruct (Z.log2_spec n Hn) as [Hn1 Hn2]; fold ln in Hn1, Hn2.
  destruct (Z.log2_spec (Z.pos d) eq_refl) as [Hd1 Hd2]; fold ld in Hd1, Hd2.
  assert (Hln : (0 <= ln)%Z) by apply Z.log2_nonneg.
  assert (Hld : (0 <= ld)%Z) by apply Z.log2_nonneg.
  assert (HD : 0 < inject_Z (Z.pos d)) by reflexivity.
  assert (QN1 : 2 ^ ln <= inject_Z n)
    by (rewrite pow2_Z by lia; rewrite <- Zle_Qle; exact Hn1).
  assert (QN2 : inject_Z n < 2 ^ (ln + 1))
    by (rewrite pow2_Z by lia; rewrite <- Zlt_Qlt; exact Hn2).
  assert (QD1 : 2 ^ ld <= inject_Z (Z.pos d))
    by (rewrite pow2_Z by lia; rewrite <- Zle_Qle; exact Hd1).
  assert (QD2 : inject_Z (Z.pos d) < 2 ^ (ld + 1))
    by (rewrite pow2_Z by lia; rewrite <- Zlt_Qlt; exact Hd2).
  assert (Hup : n # d < 2 ^ (ln - ld + 1)).
  { rewrite (Qmake_Qdiv n d); apply Qlt_shift_div_r; [exact HD|].
    eapply Qlt_le_trans; [exact QN2|].
    replace (ln + 1)%Z with ((ln - ld + 1) + ld)%Z by lia.
    rewrite pow2_plus.
    apply Qmult_le_l; [apply pow2_pos | exact QD1]. }
  assert (Hlo : 2 ^ (ln - ld - 1) < n # d).
  { rewrite (Qmake_Qdiv n d); apply Qlt_shift_div_l; [exact HD|].
    eapply Qlt_le_trans; [|exact QN1].
    replace ln with ((ln - ld - 1) + (ld + 1))%Z at 2 by lia.
    rewrite pow2_plus.
    apply Qmult_lt_l; [apply pow2_pos | exact QD2]. }
  destruct (Qle_bool (2 ^ (ln - ld)) (n # d)) eqn:Hc.
  - apply Qle_bool_iff in Hc; split; assumption.
  - replace (ln - ld - 1 + 1)%Z with (ln - ld)%Z by lia.
    split; [apply Qlt_le_weak; exact Hlo|].
    apply Qnot_le_lt; intros H; apply Qle_bool_iff in H; congruence.
Qed.

Lemma ilog2_unique (a : Q) (e : Z) : 2 ^ e <= a -> a < 2 ^ (e + 1) -> ilog2 a = e.
Proof.
  intros H1 H2.
  assert (Ha : 0 < a) by (eapply Qlt_le_trans; [apply (pow2_pos e) | exact H1]).
  destruct (ilog2_spec a Ha) as [H3 H4].
  assert (ilog2 a < e + 1)%Z
    by (apply pow2_lt_inv; eapply Qle_lt_trans; eassumption).
  assert (e < ilog2 a + 1)%Z
    by (apply pow2_lt_inv; eapply Qle_lt_trans; eassumption).
  lia.
Qed.

Lemma ilog2_comp (a b : Q) : 0 < a -> a == b -> ilog2 a = ilog2 b.
Proof.
  intros Ha Hab.
  destruct (ilog2_spec a Ha) as [H1 H2].
  symmetry; apply ilog2_unique; rewrite <- Hab; assumption.
Qed.

Lemma ilog2_monotone (a b : Q) : 0 < a -> a <= b -> (ilog2 a <= ilog2 b)%Z.
Proof.
  intros Ha Hab.
  assert (Hb : 0 < b) by (eapply Qlt_le_trans; eassumption).
  destruct (ilog2_spec a Ha) as [H1 _], (ilog2_spec b Hb) as [_ H2].
  assert (ilog2 a < ilog2 b + 1)%Z; [|lia].
  apply pow2_lt_inv.
  eapply Qle_lt_trans; [exact H1|]; eapply Qle_lt_trans; eassumption.
Qed.

Lemma round_half_even_comp (x y : Q) :
  x == y -> round_half_even x = round_half_even y.
Proof.
  intros H; unfold round_half_even.
  rewrite (Qfloor_comp x y H).
  assert (He : x - inject_Z (Qfloor y) == y - inject_Z (Qfloor y))
    by (rewrite H; reflexivity).
  rewrite (Qcompare_comp _ _ He (1 # 2) (1 # 2) (Qeq_refl _)); reflexivity.
Qed.

Lemma round_half_even_bounds (x : Q) :
  (Qfloor x <= round_half_even x <= Qfloor x + 1)%Z.
Proof.
  unfold round_half_even.
  destruct (Qcompare _ _); [destruct (Z.even _)| |]; lia.
Qed.

Lemma round_half_even_integer (m : Z) : round_half_even (inject_Z m) = m.
Proof.
  unfold round_half_even; rewrite Qfloor_Z.
  assert (He : inject_Z m - inject_Z m == 0) by ring.
  rewrite (Qcompare_comp _ _ He (1 # 2) (1 # 2) (Qeq_refl _)); reflexivity.
Qed.

Lemma round_half_even_monotone (x y : Q) :
  x <= y -> (round_half_even x <= round_half_even y)%Z.
Proof.
  intros H.
  pose proof (Qfloor_resp_le x y H) as Hf.
  destruct (Z.eq_dec (Qfloor x) (Qfloor y)) as [He | Hne].
  - unfold round_half_even; rewrite He.
    assert (Hd : x - inject_Z (Qfloor y) <= y - inject_Z (Qfloor y))
      by (apply Qplus_le_l; exact H).
    revert Hd.
    generalize (x - inject_Z (Qfloor y)), (y - inject_Z (Qfloor y)).
    intros a b Hab.
    destruct (Qcompare a (1 # 2)) eqn:Hx; destruct (Qcompare b (1 # 2)) eqn:Hy;
      try (destruct (Z.even (Qfloor y))); try lia; exfalso;
      try (apply (proj2 (Qeq_alt _ _)) in Hx); try (apply (proj2 (Qlt_alt _ _)) in Hx);
      try (apply (proj2 (Qgt_alt _ _)) in Hx);
      try (apply (proj2 (Qeq_alt _ _)) in Hy); try (apply (proj2 (Qlt_alt _ _)) in Hy);
      try (apply (proj2 (Qgt_alt _ _)) in Hy); lra.
  - pose proof (round_half_even_bounds x); pose proof (round_half_even_bounds y).
    lia.
Qed.

Lemma Qfloor_unique (x : Q) (z : Z) :
  inject_Z z <= x -> x < inject_Z (z + 1) -> Qfloor x = z.
Proof.
  intros H1 H2.
  pose proof (Qfloor_le x) as H3; pose proof (Qlt_floor x) as H4.
  assert (Qfloor x < z + 1)%Z
    by (rewrite Zlt_Qlt; eapply Qle_lt_trans; eassumption).
  assert (z < Qfloor x + 1)%Z
    by (rewrite Zlt_Qlt; eapply Qle_lt_trans; eassumption).
  lia.
Qed.

Lemma round_half_even_opp (x : Q) :
  round_half_even (- x) = (- round_half_even x)%Z.
Proof.
  set (f := Qfloor x).
  pose proof (Qfloor_le x) as H1; pose proof (Qlt_floor x) as H2.
  fold f in H1, H2.
  destruct (Qeq_dec x (inject_Z f)) as [He | Hne].
  - rewrite (round_half_even_comp x _ He), round_half_even_integer.
    assert (Ho : - x == inject_Z (- f)) by (rewrite He, inject_Z_opp; reflexivity).
    rewrite (round_half_even_comp _ _ Ho), round_half_even_integer; reflexivity.
  - assert (Hlt : inject_Z f < x).
    { apply Qle_lteq in H1; destruct H1 as [H|H]; [exact H|].
      exfalso; apply Hne; symmetry; exact H. }
    assert (Hf : Qfloor (- x) = (- f - 1)%Z).
    { apply Qfloor_unique.
      - unfold Z.sub; rewrite inject_Z_plus, !inject_Z_opp.
        rewrite inject_Z_plus in H2; change (inject_Z 1) with 1 in *.
        revert H2; generalize (inject_Z f); intros g H2; lra.
      - replace (- f - 1 + 1)%Z with (- f)%Z by lia; rewrite inject_Z_opp.
        revert Hlt; generalize (inject_Z f); intros g Hg; lra. }
    unfold round_half_even; rewrite Hf; fold f.
    assert (Hr : - x - inject_Z (- f - 1) == 1 - (x - inject_Z f)).
    { unfold Z.sub; rewrite inject_Z_plus, !inject_Z_opp.
      change (inject_Z 1) with 1; ring. }
    rewrite (Qcompare_comp _ _ Hr (1 # 2) (1 # 2) (Qeq_refl _)).
    generalize (x - inject_Z f); intros r.
    assert (Hev : Z.even (- f - 1) = negb (Z.even f)).
    { replace (- f - 1)%Z with (- (f + 1))%Z by lia.
      rewrite Z.even_opp, Z.even_add; simpl.
      destruct (Z.even f); reflexivity. }
    destruct (Qcompare r (1 # 2)) eqn:Hc.
    + apply (proj2 (Qeq_alt r (1 # 2))) in Hc.
      replace (Qcompare (1 - r) (1 # 2)) with Eq
        by (symmetry; apply (proj1 (Qeq_alt (1 - r) (1 # 2))); rewrite Hc; reflexivity).
      rewrite Hev; destruct (Z.even f); simpl; lia.
    + apply (proj2 (Qlt_alt r (1 # 2))) in Hc.
      replace (Qcompare (1 - r) (1 # 2)) with Gt.
      2:{ symmetry; apply (proj1 (Qgt_alt (1 - r) (1 # 2))); clear - Hc; lra. }
      lia.
    + apply (proj2 (Qgt_alt r (1 # 2))) in Hc.
      replace (Qcompare (1 - r) (1 # 2)) with Lt.
      2:{ symmetry; apply (proj1 (Qlt_alt (1 - r) (1 # 2))); clear - Hc; lra. }
      lia.
Qed.

Lemma exponent_ge (q : Q) : (-1022 <= exponent q)%Z.
Proof. apply Z.le_max_r. Qed.

Lemma ulp_pos (q : Q) : 0 < ulp q.
Proof. apply pow2_pos. Qed.

Lemma Qabs_pos_lt (q : Q) : ~ q == 0 -> 0 < Qabs q.
Proof.
  intros H.
  destruct (Qlt_le_dec 0 q) as [Hp | Hn].
  - rewrite Qabs_pos by (apply Qlt_le_weak; exact Hp); exact Hp.
  - rewrite Qabs_neg by exact Hn.
    apply Qle_lteq in Hn; destruct Hn as [Hn | Hn]; [lra | contradiction].
Qed.

Lemma exponent_comp (x y : Q) : ~ x == 0 -> x == y -> exponent x = exponent y.
Proof.
  intros Hx H; unfold exponent; f_equal.
  apply ilog2_comp; [apply Qabs_pos_lt; exact Hx | apply Qabs_wd; exact H].
Qed.

Lemma exponent_opp (q : Q) : exponent (- q) = exponent q.
Proof.
  destruct q as [n d]; unfold exponent, Qabs, Qopp; simpl.
  rewrite Z.abs_opp; reflexivity.
Qed.

Lemma binary64_zero (q : Q) : q == 0 -> binary64 q = 0.
Proof.
  intros H; unfold binary64; apply Qeq_bool_iff in H; rewrite H; reflexivity.
Qed.

Lemma binary64_nonzero (q : Q) :
  ~ q == 0 ->
  binary64 q == inject_Z (round_half_even (q / ulp q)) * ulp q.
Proof.
  intros H; unfold binary64.
  destruct (Qeq_bool q 0) eqn:Hc; [apply Qeq_bool_iff in Hc; contradiction|].
  apply Qred_correct.
Qed.

Lemma binary64_comp (x y : Q) : x == y -> binary64 x == binary64 y.
Proof.
  intros H.
  destruct (Qeq_dec x 0) as [Hx | Hx].
  - rewrite (binary64_zero x Hx), (binary64_zero y) by (rewrite <- H; exact Hx).
    reflexivity.
  - assert (Hy : ~ y == 0) by (rewrite <- H; exact Hx).
    rewrite (binary64_nonzero x Hx), (binary64_nonzero y Hy).
    unfold ulp; rewrite (exponent_comp x y Hx H).
    rewrite (round_half_even_comp (x / _) (y / 2 ^ (exponent y - 52)));
      [reflexivity | rewrite H; reflexivity].
Qed.

Lemma binary64_opp (q : Q) : binary64 (- q) == - binary64 q.
Proof.
  destruct (Qeq_dec q 0) as [Hq | Hq].
  - rewrite (binary64_zero q Hq), (binary64_zero (- q)) by (rewrite Hq; reflexivity).
    reflexivity.
  - assert (Ho : ~ - q == 0) by (intros H; apply Hq; lra).
    rewrite (binary64_nonzero q Hq), (binary64_nonzero (- q) Ho).
    unfold ulp; rewrite exponent_opp.
    rewrite (round_half_even_comp (- q / _) (- (q / 2 ^ (exponent q - 52)))).
    + rewrite round_half_even_opp, inject_Z_opp; ring.
    + unfold Qdiv; ring.
Qed.

Lemma positive_below (q : Q) : 0 < q -> q < 2 ^ (exponent q + 1).
Proof.
  intros H.
  assert (Ha : Qabs q == q) by (apply Qabs_pos, Qlt_le_weak; exact H).
  assert (Hp : 0 < Qabs q) by (rewrite Ha; exact H).
  destruct (ilog2_spec (Qabs q) Hp) as [_ H2].
  rewrite <- Ha at 1.
  eapply Qlt_le_trans; [exact H2|].
  apply pow2_le; unfold exponent; lia.
Qed.

Lemma positive_above (q : Q) :
  0 < q -> (-1022 < exponent q)%Z -> 2 ^ exponent q <= q.
Proof.
  intros H He.
  assert (Ha : Qabs q == q) by (apply Qabs_pos, Qlt_le_weak; exact H).
  assert (Hp : 0 < Qabs q) by (rewrite Ha; exact H).
  destruct (ilog2_spec (Qabs q) Hp) as [H1 _].
  rewrite <- Ha at 2.
  unfold exponent in *.
  replace (Z.max (ilog2 (Qabs q)) (-1022)) with (ilog2 (Qabs q)) by lia.
  exact H1.
Qed.

Lemma exponent_monotone (x y : Q) :
  0 < x -> x <= y -> (exponent x <= exponent y)%Z.
Proof.
  intros Hx H.
  assert (Hy : 0 < y) by (eapply Qlt_le_trans; eassumption).
  unfold exponent.
  assert (ilog2 (Qabs x) <= ilog2 (Qabs y))%Z; [|lia].
  apply ilog2_monotone.
  - rewrite Qabs_pos by (apply Qlt_le_weak; exact Hx); exact Hx.
  - rewrite !Qabs_pos by (apply Qlt_le_weak; assumption); exact H.
Qed.

(** The mantissa: the scaled number rounded to an integer. *)
Lemma mantissa_bounds (q : Q) :
  0 < q -> (0 <= round_half_even (q / ulp q) <= 2 ^ 53)%Z.
Proof.
  intros H; split.
  - apply Z.le_trans with (round_half_even (inject_Z 0));
      [rewrite round_half_even_integer; lia | apply round_half_even_monotone].
    apply Qle_shift_div_l; [apply ulp_pos|].
    rewrite Qmult_0_l; apply Qlt_le_weak; exact H.
  - apply Z.le_trans with (round_half_even (inject_Z (2 ^ 53)));
      [apply round_half_even_monotone | rewrite round_half_even_integer; lia].
    apply Qle_shift_div_r; [apply ulp_pos|].
    apply Qlt_le_weak; eapply Qlt_le_trans; [apply positive_below; exact H|].
    unfold ulp; rewrite <- (pow2_Z 53) by discriminate.
    rewrite <- pow2_plus.
    apply pow2_le; lia.
Qed.

Lemma mantissa_normal (q : Q) :
  0 < q -> 2 ^ exponent q <= q ->
  (2 ^ 52 <= round_half_even (q / ulp q))%Z.
Proof.
  intros H Hn.
  apply Z.le_trans with (round_half_even (inject_Z (2 ^ 52)));
    [rewrite round_half_even_integer; lia | apply round_half_even_monotone].
  apply Qle_shift_div_l; [apply ulp_pos|].
  eapply Qle_trans; [|exact Hn].
  unfold ulp; rewrite <- (pow2_Z 52) by discriminate.
  rewrite <- pow2_plus.
  apply pow2_le; lia.
Qed.

Lemma binary64_positive (q : Q) :
  0 < q ->
  0 <= binary64 q /\ binary64 q <= 2 ^ (exponent q + 1) /\
  (2 ^ exponent q <= q -> 2 ^ exponent q <= binary64 q).
Proof.
  intros H.
  assert (Hq : ~ q == 0) by (intros He; rewrite He in H; discriminate).
  pose proof (mantissa_bounds q H) as [Hm0 Hm1].
  rewrite (binary64_nonzero q Hq).
  set (m := round_half_even (q / ulp q)) in *.
  pose proof (ulp_pos q) as Hu.
  assert (Hpow : 2 ^ (exponent q + 1) == inject_Z (2 ^ 53) * ulp q).
  { unfold ulp.
    replace (exponent q + 1)%Z with (53 + (exponent q - 52))%Z by lia.
    rewrite pow2_plus, (pow2_Z 53) by discriminate; reflexivity. }
  assert (Hpow' : 2 ^ exponent q == inject_Z (2 ^ 52) * ulp q).
  { unfold ulp.
    replace (exponent q) with (52 + (exponent q - 52))%Z at 1 by lia.
    rewrite pow2_plus, (pow2_Z 52) by discriminate; reflexivity. }
  split; [|split].
  - apply Qmult_le_0_compat; [|apply Qlt_le_weak; exact Hu].
    change 0 with (inject_Z 0); rewrite <- Zle_Qle; exact Hm0.
  - rewrite Hpow; apply Qmult_le_compat_r; [|apply Qlt_le_weak; exact Hu].
    rewrite <- Zle_Qle; exact Hm1.
  - intros Hn; rewrite Hpow'.
    apply Qmult_le_compat_r; [|apply Qlt_le_weak; exact Hu].
    rewrite <- Zle_Qle; apply mantissa_normal; assumption.
Qed.

Lemma binary64_monotone_positive (x y : Q) :
  0 < x -> x <= y -> binary64 x <= binary64 y.
Proof.
  intros Hx H.
  assert (Hy : 0 < y) by (eapply Qlt_le_trans; eassumption).
  pose proof (exponent_monotone x y Hx H) as He.
  destruct (Z.eq_dec (exponent x) (exponent y)) as [Heq | Hne].
  - assert (Hx0 : ~ x == 0) by (intros E; rewrite E in Hx; discriminate).
    assert (Hy0 : ~ y == 0) by (intros E; rewrite E in Hy; discriminate).
    rewrite (binary64_nonzero x Hx0), (binary64_nonzero y Hy0).
    unfold ulp; rewrite Heq.
    pose proof (pow2_pos (exponent y - 52)) as Hu.
    apply Qmult_le_compat_r; [|apply Qlt_le_weak; exact Hu].
    rewrite <- Zle_Qle; apply round_half_even_monotone.
    apply Qmult_le_compat_r; [exact H|].
    apply Qinv_le_0_compat, Qlt_le_weak; exact Hu.
  - pose proof (exponent_ge x) as Hg.
    destruct (binary64_positive x Hx) as (_ & Hxu & _).
    destruct (binary64_positive y Hy) as (_ & _ & Hyl).
    eapply Qle_trans; [exact Hxu|].
    eapply Qle_trans; [|apply Hyl, positive_above; [exact Hy | lia]].
    apply pow2_le; lia.
Qed.

Lemma binary64_monotone (x y : Q) : x <= y -> binary64 x <= binary64 y.
Proof.
  intros H.
  assert (Hneg : forall q, q < 0 -> binary64 q <= 0).
  { intros q Hq.
    assert (Ho : 0 < - q) by lra.
    destruct (binary64_positive (- q) Ho) as (H0 & _).
    rewrite binary64_opp in H0; lra. }
  assert (Hnp : forall q, q <= 0 -> binary64 q <= 0).
  { intros q Hq; apply Qle_lteq in Hq; destruct Hq as [Hq | Hq].
    - apply Hneg; exact Hq.
    - rewrite (binary64_zero q Hq); apply Qle_refl. }
  destruct (Qlt_le_dec 0 x) as [Hx | Hx].
  - apply binary64_monotone_positive; assumption.
  - destruct (Qlt_le_dec 0 y) as [Hy | Hy].
    + destruct (binary64_positive y Hy) as (H0 & _).
      eapply Qle_trans; [apply Hnp; exact Hx | exact H0].
    + apply Qle_lteq in Hy; destruct Hy as [Hy | Hy].
      * assert (Hm : binary64 (- y) <= binary64 (- x))
          by (apply binary64_monotone_positive; lra).
        rewrite !binary64_opp in Hm; lra.
      * rewrite (binary64_zero y Hy); apply Hnp; exact Hx.
Qed.

Lemma binary64_fixed (q : Q) (n : Z) :
  q / ulp q == inject_Z n -> binary64 q == q.
Proof.
  intros H.
  destruct (Qeq_dec q 0) as [Hq | Hq].
  - rewrite (binary64_zero q Hq), Hq; reflexivity.
  - rewrite (binary64_nonzero q Hq), (round_half_even_comp _ _ H).
    rewrite round_half_even_integer, <- H.
    pose proof (ulp_pos q) as Hu.
    field; intros E; rewrite E in Hu; discriminate.
Qed.

(** A multiple of a power of two by a mantissa of at most 53 bits is a
    double. *)
Lemma binary64_representable (m k : Z) :
  (0 < m <= 2 ^ 53)%Z -> (-1074 <= k)%Z ->
  binary64 (inject_Z m * 2 ^ k) == inject_Z m * 2 ^ k.
Proof.
  intros Hm Hk.
  set (y := inject_Z m * 2 ^ k).
  pose proof (pow2_pos k) as Hpk.
  assert (Hm0 : 0 < inject_Z m)
    by (change 0 with (inject_Z 0); rewrite <- Zlt_Qlt; lia).
  assert (Hy : 0 < y) by (apply Qmult_lt_0_compat; assumption).
  assert (Hyu : y <= 2 ^ (k + 53)).
  { unfold y; replace (k + 53)%Z with (53 + k)%Z by lia.
    rewrite pow2_plus, (pow2_Z 53) by discriminate.
    apply Qmult_le_compat_r; [|apply Qlt_le_weak; exact Hpk].
    rewrite <- Zle_Qle; lia. }
  set (E := exponent y).
  assert (HE : (E <= k + 53)%Z).
  { destruct (Z.le_gt_cases E (k + 53)) as [Hle | Hgt]; [exact Hle|].
    exfalso.
    assert (Hl : 2 ^ E <= y) by (apply positive_above; [exact Hy | fold E; lia]).
    assert (Hlt : 2 ^ (k + 53) < 2 ^ E) by (apply pow2_lt; lia).
    apply (Qlt_not_le _ _ Hlt); eapply Qle_trans; eassumption. }
  destruct (Z.eq_dec E (k + 53)) as [Heq | Hne].
  - assert (Hl : 2 ^ E <= y) by (apply positive_above; [exact Hy | fold E; lia]).
    assert (Hm53 : m = (2 ^ 53)%Z).
    { assert (Hge : inject_Z (2 ^ 53) <= inject_Z m).
      { apply Qmult_le_r with (2 ^ k); [exact Hpk|].
        fold y; eapply Qle_trans; [|exact Hl].
        rewrite Heq; replace (k + 53)%Z with (53 + k)%Z by lia.
        rewrite pow2_plus, (pow2_Z 53) by discriminate; apply Qle_refl. }
      rewrite <- Zle_Qle in Hge; lia. }
    apply binary64_fixed with (2 ^ 52)%Z.
    unfold ulp; fold E; rewrite Heq; unfold y; rewrite Hm53.
    replace (k + 53 - 52)%Z with (1 + k)%Z by lia.
    rewrite pow2_plus.
    pose proof (pow2_pos k) as Hk0.
    field_simplify_eq; [reflexivity|].
    intros E0; rewrite E0 in Hk0; discriminate.
  - apply binary64_fixed with (m * 2 ^ (k + 52 - E))%Z.
    unfold ulp; fold E; unfold y.
    rewrite inject_Z_mult, <- (pow2_Z (k + 52 - E)) by lia.
    replace k with ((k + 52 - E) + (E - 52))%Z at 1 by lia.
    rewrite pow2_plus.
    pose proof (pow2_pos (E - 52)) as Hk0.
    field; intros E0; rewrite E0 in Hk0; discriminate.
Qed.

Lemma binary64_of_zero (q : Q) : q == 0 -> binary64 q == q.
Proof. intros H; rewrite (binary64_zero q H), H; reflexivity. Qed.

Lemma binary64_idempotent_positive (q : Q) :
  0 < q -> binary64 (binary64 q) == binary64 q.
Proof.
  intros H.
  assert (Hq : ~ q == 0) by (intros E; rewrite E in H; discriminate).
  pose proof (mantissa_bounds q H) as [Hm0 Hm1].
  pose proof (binary64_nonzero q Hq) as Hfl.
  set (m := round_half_even (q / ulp q)) in *.
  unfold ulp in Hfl.
  rewrite (binary64_comp _ _ Hfl), Hfl.
  destruct (Z.eq_dec m 0) as [Hz | Hnz].
  - rewrite Hz; apply binary64_of_zero; ring.
  - apply binary64_representable; [lia|].
    pose proof (exponent_ge q); lia.
Qed.

Lemma binary64_idempotent (q : Q) : binary64 (binary64 q) == binary64 q.
Proof.
  destruct (Q_dec q 0) as [[Hn | Hp] | Hz].
  - assert (Ho : 0 < - q) by lra.
    pose proof (binary64_idempotent_positive (- q) Ho) as H.
    pose proof (binary64_opp q) as Hopp.
    rewrite (binary64_comp _ _ Hopp), binary64_opp, Hopp in H.
    lra.
  - apply binary64_idempotent_positive; exact Hp.
  - rewrite (binary64_zero q Hz); reflexivity.
Qed.

Lemma binary64_integer_positive (z : Z) :
  (0 < z <= 2 ^ 53)%Z -> binary64 (inject_Z z) == inject_Z z.
Proof.
  intros Hz.
  assert (He : inject_Z z == inject_Z z * 2 ^ 0) by (simpl; ring).
  eapply Qeq_trans; [apply (binary64_comp _ _ He)|].
  eapply Qeq_trans; [apply binary64_representable; lia|].
  symmetry; exact He.
Qed.

Lemma binary64_integer (z : Z) :
  (Z.abs z <= 2 ^ 53)%Z -> binary64 (inject_Z z) == inject_Z z.
Proof.
  intros Hz.
  destruct (Z.lt_trichotomy z 0) as [Hn | [H0 | Hp]].
  - assert (Ho : inject_Z z == - inject_Z (- z))
      by (rewrite inject_Z_opp; ring).
    rewrite (binary64_comp _ _ Ho), binary64_opp.
    rewrite binary64_integer_positive by lia.
    symmetry; exact Ho.
  - subst z; reflexivity.
  - apply binary64_integer_positive; lia.
Qed.

Lemma binary64_rounding_laws : Rounded.rounding_laws binary64.
Proof.
  split.
  - exact binary64_monotone.
  - exact binary64_idempotent.
  - exact binary64_integer.
Qed.

End Binary64Facts.

Section RoundedProperties.

(** With an integer width the rounded function returns the assembled bar
    when both counts are accepted, and throws otherwise. *)
Lemma rounded_createProgressBar_integer_width
    (fl : number -> number) (toString_other : number -> string)
    (value max : number) (w : Z) (options : Options) :
  let f := Qfloor (Rounded.mul fl
                     (Rounded.div fl (Rounded.percentage_of fl value max) 100)
                     (inject_Z w) + (1 # 2)) in
  let e := ToIntegerOrInfinity (Rounded.sub fl (inject_Z w) (inject_Z f)) in
  Rounded.createProgressBar fl toString_other value max (inject_Z w) options =
  if ((f <? 0) || (e <? 0))%Z then Throw RangeError
  else Return (Rounded.bar_of fl toString_other value max options
                 (Z.to_nat f) (Z.to_nat e)).
Proof.
  intros f e; unfold Rounded.createProgressBar, Math_round; fold f.
  unfold String_repeat at 1; rewrite ToIntegerOrInfinity_integer.
  destruct (f <? 0)%Z; [reflexivity|]; simpl bind.
  unfold String_repeat; fold e.
  destruct (e <? 0)%Z; [reflexivity|]; simpl.
  unfold Rounded.bar_of, Rounded.label_text.
  set (color := color_of _ _).
  destruct (is_empty color) eqn:Hc;
    [destruct color; [|discriminate] |];
    destruct (default true (showPercentage options)),
             (default false (showValues options));
    simpl negb; cbv iota;
    rewrite ?string_app_assoc, ?string_app_nil_r; simpl;
    rewrite ?string_app_assoc, ?string_app_nil_r; reflexivity.
Qed.

(** The empty count of an integer width at or above the fill width. *)
Lemma rounded_empty_count (fl : number -> number)
    (laws : Rounded.rounding_laws fl) (w f : Z) :
  (0 <= f <= w)%Z -> (w <= 2 ^ 53)%Z ->
  ToIntegerOrInfinity (Rounded.sub fl (inject_Z w) (inject_Z f)) = (w - f)%Z.
Proof.
  intros Hf Hw; apply ToIntegerOrInfinity_of_integer; unfold Rounded.sub.
  rewrite <- (Rounded.fl_integer fl laws (w - f)) by lia.
  assert (He : inject_Z w - inject_Z f == inject_Z (w - f))
    by (unfold Z.sub; rewrite inject_Z_plus, inject_Z_opp; reflexivity).
  apply Qle_antisym; apply (Rounded.fl_monotone fl laws); rewrite He; apply Qle_refl.
Qed.

(** Provided the rounding is monotone and keeps the integers up to 2^53, a
    returned bar of an integer width between 0 and 2^53 has exactly that
    many cells: as many filled ones as the rounded fill width, then the
    empty ones. *)
Theorem bar_has_width_cells
    (fl : number -> number) (laws : Rounded.rounding_laws fl)
    (toString_other : number -> string)
    (value max : number) (w : Z) (options : Options) (bar : string)
    (width_ok : (0 <= w <= 2 ^ 53)%Z)
    (returned : Rounded.createProgressBar fl toString_other value max
                  (inject_Z w) options = Return bar) :
  exists fill empty : nat,
    (Z.of_nat fill + Z.of_nat empty = w)%Z /\
    inject_Z (Z.of_nat fill) = Rounded.fillWidth_of fl value max (inject_Z w) /\
    bar = Rounded.bar_of fl toString_other value max options fill empty.
Proof.
  rewrite rounded_createProgressBar_integer_width in returned.
  cbv zeta in returned.
  unfold Rounded.fillWidth_of, Math_round.
  set (f := Qfloor _) in *.
  destruct (Z.ltb_spec f 0) as [|Hf]; [discriminate|].
  assert (Hfw : (f <= w)%Z)
    by (apply Math_round_le, rounded_scaled_le_width; assumption).
  rewrite (rounded_empty_count fl laws w f) in returned by lia.
  destruct (Z.ltb_spec (w - f) 0) as [|He]; [lia|].
  simpl in returned; injection returned as <-.
  exists (Z.to_nat f), (Z.to_nat (w - f)).
  rewrite !Z2Nat.id by lia.
  repeat split; lia.
Qed.

Lemma bar_has_width_cells_witness :
  let bar := "[##############....................................]" in
  exists fill empty : nat,
    (Z.of_nat fill + Z.of_nat empty = 50)%Z /\
    inject_Z (Z.of_nat fill) =
      Rounded.fillWidth_of Binary64.binary64 29 100 (inject_Z 50) /\
    bar =
      Rounded.bar_of Binary64.binary64 no_rendering 29 100
        ProgressBarShape.plain fill empty.
Proof.
  apply (bar_has_width_cells Binary64.binary64 binary64_rounding_laws
           no_rendering 29 100 50 ProgressBarShape.plain).
  - split; [discriminate | vm_compute; discriminate].
  - vm_compute; reflexivity.
Defined.

(** Provided the rounding is monotone and keeps the integers up to 2^53,
    for an integer width of magnitude up to 2^53 the function returns a
    string when the width is not negative and the scaled percentage
    (percentage / 100 * width, as computed) is at least -1/2, and throws a
    [RangeError] in every other case: a negative width, or a scaled
    percentage below -1/2, whose rounding is a negative fill width. *)
Theorem createProgressBar_returns_or_throws
    (fl : number -> number) (laws : Rounded.rounding_laws fl)
    (toString_other : number -> string)
    (value max : number) (w : Z) (options : Options)
    (width_ok : (Z.abs w <= 2 ^ 53)%Z) :
  let scaled :=
    Rounded.mul fl (Rounded.div fl (Rounded.percentage_of fl value max) 100)
      (inject_Z w) in
  ((0 <= w)%Z -> - (1 # 2) <= scaled ->
   returns (Rounded.createProgressBar fl toString_other value max
              (inject_Z w) options)) /\
  ((w < 0)%Z \/ scaled < - (1 # 2) ->
   Rounded.createProgressBar fl toString_other value max (inject_Z w) options
   = Throw RangeError).
Proof.
  intros scaled; rewrite rounded_createProgressBar_integer_width; cbv zeta.
  fold scaled; set (f := Qfloor (scaled + (1 # 2))).
  split.
  - intros Hw Hs.
    assert (Hf0 : (0 <= f)%Z).
    { change 0%Z with (Qfloor 0); apply Qfloor_resp_le.
      revert Hs; generalize scaled; intros t Ht; unfold number in *; lra. }
    assert (Hfw : (f <= w)%Z)
      by (apply Math_round_le, rounded_scaled_le_width; [exact laws | lia]).
    rewrite (rounded_empty_count fl laws w f) by lia.
    destruct (Z.ltb_spec f 0); [lia|].
    destruct (Z.ltb_spec (w - f) 0); [lia|].
    eexists; reflexivity.
  - intros [Hw | Hs].
    + destruct (Z.ltb_spec f 0) as [|Hf]; [reflexivity|].
      assert (He : (ToIntegerOrInfinity
                      (Rounded.sub fl (inject_Z w) (inject_Z f)) < 0)%Z).
      { apply ToIntegerOrInfinity_negative; unfold Rounded.sub.
        change (-1) with (inject_Z (-1)).
        apply (fl_le_integer fl laws); [discriminate|].
        assert (Hd : inject_Z w - inject_Z f == inject_Z (w - f))
          by (unfold Z.sub; rewrite inject_Z_plus, inject_Z_opp; reflexivity).
        rewrite Hd, <- Zle_Qle; lia. }
      destruct (Z.ltb_spec (ToIntegerOrInfinity
                              (Rounded.sub fl (inject_Z w) (inject_Z f))) 0);
        [reflexivity | lia].
    + assert (Hf : (f < 0)%Z).
      { apply Qfloor_negative.
        revert Hs; generalize scaled; intros t Ht; unfold number in *; lra. }
      destruct (Z.ltb_spec f 0); [reflexivity | lia].
Qed.

Lemma createProgressBar_returns_or_throws_witness :
  returns (Rounded.createProgressBar Binary64.binary64 no_rendering (-5) 100
             (inject_Z 10) noOptions) /\
  Rounded.createProgressBar Binary64.binary64 no_rendering (-1) 142
    (inject_Z 71) noOptions = Throw RangeError.
Proof.
  split.
  - apply (createProgressBar_returns_or_throws Binary64.binary64
             binary64_rounding_laws no_rendering (-5) 100 10 noOptions);
      vm_compute; discriminate.
  - apply (createProgressBar_returns_or_throws Binary64.binary64
             binary64_rounding_laws no_rendering (-1) 142 71 noOptions);
      [vm_compute; discriminate | right; vm_compute; reflexivity].
Defined.

(** Provided the rounding is monotone, leaves a double unchanged and keeps
    0, [centerText] returns a string for every text and every finite
    width, fractional and negative ones included: neither padding count is
    negative.  A width that is not positive returns the text itself. *)
Theorem centerText_returns_for_finite_width
    (fl : number -> number) (laws : Rounded.rounding_laws fl)
    (stringWidth : string -> nat) (text : string) (width : number) :
  returns (Rounded.centerText fl stringWidth text width) /\
  (width <= 0 -> Rounded.centerText fl stringWidth text width = Return text).
Proof.
  set (d := inject_Z (Z.of_nat (stringWidth text))).
  assert (Hwide : width <= d ->
                  Rounded.centerText fl stringWidth text width = Return text).
  { intros H; unfold Rounded.centerText, ge; fold d.
    apply Qle_bool_iff in H; rewrite H; reflexivity. }
  split.
  - destruct (Qlt_le_dec d width) as [H|H]; [|eexists; apply Hwide; exact H].
    unfold Rounded.centerText, ge; fold d.
    destruct (Qle_bool width d) eqn:Hc;
      [apply Qle_bool_iff in Hc; exfalso; exact (Qlt_not_le _ _ H Hc)|].
    unfold Rounded.div, Rounded.sub, Math_floor.
    set (x := fl (width - d)).
    assert (Hx : 0 <= x)
      by (apply (fl_nonneg fl laws); unfold number in *; lra).
    set (h := fl (x / 2)).
    assert (Hh0 : 0 <= h).
    { apply (fl_nonneg fl laws), Qle_shift_div_l; [reflexivity|].
      revert Hx; generalize x; intros t Ht; unfold number in *; lra. }
    assert (Hhx : h <= x).
    { apply Qle_trans with (fl x).
      - apply (Rounded.fl_monotone fl laws).
        apply Qle_shift_div_r; [reflexivity|].
        revert Hx; generalize x; intros t Ht; unfold number in *; lra.
      - unfold x; rewrite (Rounded.fl_idempotent fl laws); apply Qle_refl. }
    assert (Hl : (0 <= Qfloor h)%Z)
      by (change 0%Z with (Qfloor 0); apply Qfloor_resp_le; exact Hh0).
    rewrite String_repeat_integer by exact Hl; simpl bind.
    rewrite String_repeat_nonneg; [simpl bind; eexists; reflexivity|].
    apply (fl_nonneg fl laws).
    pose proof (Qfloor_le h) as Hfl.
    revert Hfl Hhx; generalize (inject_Z (Qfloor h)), h, x; intros a b c Ha Hb.
    unfold number in *; lra.
  - intros H; apply Hwide, Qle_trans with 0; [exact H|].
    unfold d; change 0 with (inject_Z 0); rewrite <- Zle_Qle; lia.
Qed.

Lemma centerText_returns_for_finite_width_witness :
  returns (Rounded.centerText Binary64.binary64 String.length "hi" (13 # 2)) /\
  ((13 # 2) <= 0 ->
   Rounded.centerText Binary64.binary64 String.length "hi" (13 # 2)
   = Return "hi").
Proof.
  exact (centerText_returns_for_finite_width Binary64.binary64
           binary64_rounding_laws String.length "hi" (13 # 2)).
Defined.

End RoundedProperties.
